(** * Boggle and Inverse Boggle (ipynb/Boggle.ipynb)

    A shallow embedding of the notebook's Python code: the [Board] class
    with its constructor and [__repr__], [neighbors], [total_score], the
    word list [WORDS], [word_prefixes], [find_words],
    [boggle_hill_climbing], [mutate_boggle], the letter pool [LETTERS] and
    [random_board].  [report], which only prints, is not modelled.

    Modelling conventions.
    - A Python [str] is a Rocq [string] (8-bit characters); [len] is
      [String.length] and [<=] on strings is the lexicographic order
      [String.leb], as in Python.
    - A Python [int] is a [Z].
    - A [dict] is a [gmap], a [set] of strings is a [gset string], a [list]
      is a [list].
    - An exception is a value of [exn]; code that may raise returns a
      [result].  The notation [x ← m; k] sequences two computations and
      stops at the first exception, as Python does.
    - [random.choice] and [random.sample] read their draws from an explicit
      source of numbers.
    - [int(len(letters) ** 0.5)] is the integer square root [Z.sqrt]: the
      double-precision power has the same integer part for every length
      below 2^52.
    - [repeat] is a [nat]: a negative [repeat] makes no pass, like 0.
    - The interpreter's recursion limit is not modelled: [continue_path]
      recurses on a counter that [find_words] sets to a depth the search
      provably never reaches ([find_words_no_RecursionError]). *)

From Stdlib Require Import ZArith String Ascii.
From stdpp Require Import gmap strings list fin_maps.

Open Scope Z_scope.

(** ** Exceptions *)

Inductive exn : Type :=
  | TypeError
  | KeyError
  | IndexError
  | FileNotFoundError
  | RecursionError.

Inductive result (A : Type) : Type :=
  | Ok (a : A)
  | Raise (e : exn).
Arguments Ok {A} a.
Arguments Raise {A} e.

#[global] Instance result_ret : MRet result := λ A a, Ok a.
#[global] Instance result_bind : MBind result := λ A B f m,
  match m with
  | Ok a => f a
  | Raise e => Raise e
  end.
#[global] Instance result_fmap : FMap result := λ A B f m,
  match m with
  | Ok a => Ok (f a)
  | Raise e => Raise e
  end.

(** [d[k]] on a dict: [KeyError] when the key is absent. *)
Definition dict_get `{Countable K} {V} (d : gmap K V) (k : K) : result V :=
  match d !! k with
  | Some v => Ok v
  | None => Raise KeyError
  end.

(** [l[-1]] on a list: [IndexError] when the list is empty. *)
Definition list_last {A} (l : list A) : result A :=
  match last l with
  | Some a => Ok a
  | None => Raise IndexError
  end.

(** [l[i]] on a list with [0 <= i]: [IndexError] when out of range. *)
Definition list_get {A} (l : list A) (i : nat) : result A :=
  match l !! i with
  | Some a => Ok a
  | None => Raise IndexError
  end.

(** A [for] loop that threads an accumulator and stops at the first
    exception. *)
Fixpoint for_each {A S} (body : S → A → result S) (st : S) (l : list A)
  : result S :=
  match l with
  | [] => Ok st
  | a :: l' => st' ← body st a; for_each body st' l'
  end.

(** Iterating a [str] yields its characters as one-character strings. *)
Fixpoint chars (s : string) : list string :=
  match s with
  | EmptyString => []
  | String c s' => String c EmptyString :: chars s'
  end.

(** ** The board *)

Definition square : Type := Z * Z.

(** [range(n)] *)
Definition range (n : Z) : list Z := seqZ 0 n.

(** [neighbors(square, n)]: the list comprehension over [dx], [dy] in
    [(-1, 0, 1)]; [dx == dy == 0] is Python's chained comparison. *)
Definition neighbors (sq : square) (n : Z) : list square :=
  let '(x, y) := sq in
  dx ← [-1; 0; 1];
  dy ← [-1; 0; 1];
  if (0 <=? x + dx) && (x + dx <? n) && (0 <=? y + dy) && (y + dy <? n)
     && negb ((dx =? dy) && (dy =? 0))
  then [(x + dx, y + dy)] else [].

(** A [Board] is a dict [{(x, y): L}] (the field [tiles]) that also holds
    the attributes [squares] and [neighbors].  The attribute [format] is
    used by [__repr__] only and is left out. *)
Record Board : Type := mkBoard {
  tiles : gmap square string;
  squares : list square;
  board_neighbors : gmap square (list square);
}.

(** [d.update(pairs)] and a dict comprehension: later pairs overwrite. *)
Definition dict_update `{Countable K} {V} (d : gmap K V) (kvs : list (K * V))
  : gmap K V :=
  foldl (λ m kv, <[kv.1 := kv.2]> m) d kvs.

(** [[('QU' if L == 'Q' else L) for L in letters if 'A' <= L <= 'Z']] *)
Definition keep_letter (L : string) : bool :=
  String.leb "A" L && String.leb L "Z".

Definition board_letters (letters : list string) : list string :=
  (λ L, if String.eqb L "Q" then "QU" else L) <$> filter keep_letter letters.

(** [int(len(letters) ** 0.5)] *)
Definition board_size (letters : list string) : Z :=
  Z.sqrt (Z.of_nat (length letters)).

(** [[(x, y) for y in range(n) for x in range(n)]] *)
Definition board_squares (n : Z) : list square :=
  y ← range n; x ← range n; [(x, y)].

(** [Board.__init__(self, letters=None)].  With the default [None] the list
    comprehension iterates [None] and raises [TypeError]. *)
Definition Board_init (letters : option (list string)) : result Board :=
  match letters with
  | None => Raise TypeError
  | Some letters =>
    let letters := board_letters letters in
    let n := board_size letters in
    let sqs := board_squares n in
    Ok {| tiles := dict_update ∅ (zip sqs letters);
          squares := sqs;
          board_neighbors := dict_update ∅ ((λ s, (s, neighbors s n)) <$> sqs) |}
  end.

(** [board[s] = L] *)
Definition set_tile (b : Board) (s : square) (L : string) : Board :=
  {| tiles := <[s := L]> (tiles b);
     squares := squares b;
     board_neighbors := board_neighbors b |}.

(** ** The word list and scoring *)

(** [str.upper] on the letters a to z. *)
Definition upper_char (c : ascii) : ascii :=
  let n := nat_of_ascii c in
  if (97 <=? n)%nat && (n <=? 122)%nat then ascii_of_nat (n - 32) else c.

Fixpoint upper (s : string) : string :=
  match s with
  | EmptyString => EmptyString
  | String c s' => String (upper_char c) (upper s')
  end.

(** [str.split()]: the maximal runs of non-whitespace characters. *)
Definition is_space (c : ascii) : bool :=
  let n := nat_of_ascii c in
  ((9 <=? n)%nat && (n <=? 13)%nat) || ((28 <=? n)%nat && (n <=? 32)%nat).

Fixpoint split_from (cur : string) (s : string) : list string :=
  match s with
  | EmptyString => if String.eqb cur "" then [] else [cur]
  | String c s' =>
    if is_space c
    then (if String.eqb cur "" then [] else [cur]) ++ split_from "" s'
    else split_from (cur +:+ String c EmptyString) s'
  end.

Definition str_split (s : string) : list string := split_from "" s.

(** [{w for w in open('enable1.txt').read().upper().split() if len(w) >= 3}].
    The file system is the argument: [None] when the file cannot be
    opened. *)
Definition load_WORDS (enable1 : option string) : result (gset string) :=
  match enable1 with
  | None => Raise FileNotFoundError
  | Some text =>
    Ok (list_to_set (filter (λ w, (3 ≤ String.length w)%nat) (str_split (upper text))))
  end.

(** [word[:i]] for [0 <= i] *)
Fixpoint str_take (i : nat) (s : string) : string :=
  match i, s with
  | S i', String c s' => String c (str_take i' s')
  | _, _ => EmptyString
  end.

(** [{word[:i] for word in words for i in range(1, len(word))}] *)
Definition word_prefixes (words : gset string) : gset string :=
  list_to_set (word ← elements words;
               i ← seq 1 (String.length word - 1);
               [str_take i word]).

(** The default value of [total_score]'s parameter [scores]. *)
Definition default_scores : list Z :=
  [0; 0; 0; 1; 1; 2; 3; 5] ++ replicate 99 11.

(** [sum(l)] *)
Definition py_sum (l : list Z) : Z := foldl Z.add 0 l.

(** [total_score(found, scores)]; [WORDS] is the global it reads. *)
Definition total_score (WORDS : gset string) (found : gset string)
    (scores : list Z) : result Z :=
  py_sum <$> mapM (λ w, list_get scores (String.length w)) (elements (found ∩ WORDS)).

(** ** Finding all the words in a board *)

(** The inner function [continue_path] of [find_words]; [found] is the set
    it accumulates into, [depth] the counter that stands for the stack. *)
Fixpoint continue_path (depth : nat) (board : Board)
    (words prefixes : gset string)
    (path : list square) (prefix : string) (found : gset string)
  : result (gset string) :=
  match depth with
  | O => Raise RecursionError
  | S depth' =>
    let found := if decide (prefix ∈ words) then {[prefix]} ∪ found else found in
    if decide (prefix ∈ prefixes) then
      tip ← list_last path;
      ns ← dict_get (board_neighbors board) tip;
      for_each (λ found s,
                  if decide (s ∈ path) then Ok found
                  else L ← dict_get (tiles board) s;
                       continue_path depth' board words prefixes
                                     (path ++ [s]) (prefix +:+ L) found)
               found ns
    else Ok found
  end.

(** Every square a path can step to: the values of [board.neighbors]. *)
Definition reachable_squares (board : Board) : list square :=
  kv ← map_to_list (board_neighbors board); kv.2.

(** A path never repeats a square, so it is never longer than this. *)
Definition search_depth (board : Board) : nat :=
  S (length (reachable_squares board)).

(** [find_words(board, words, prefixes)] *)
Definition find_words (board : Board) (words prefixes : gset string)
  : result (gset string) :=
  for_each (λ found s,
              L ← dict_get (tiles board) s;
              continue_path (search_depth board) board words prefixes [s] L found)
           ∅ (squares board).

(** ** Inverse Boggle: hill climbing *)

(** [LETTERS = 3 * 'AABCDEEEGHIILMNOOPRSTUY' + 'AADEFFIJKKLLNNQRSSTTUVVWWXZ'] *)
Definition LETTERS : string :=
  "AABCDEEEGHIILMNOOPRSTUY" +:+ "AABCDEEEGHIILMNOOPRSTUY"
  +:+ "AABCDEEEGHIILMNOOPRSTUY" +:+ "AADEFFIJKKLLNNQRSSTTUVVWWXZ".

(** [random.choice(seq)]: the [k]-th draw of the random source [rand] picks
    the index; [IndexError] on an empty sequence.  The result carries the
    number of the next draw. *)
Definition random_choice {A} (rand : nat → nat) (k : nat) (seq : list A)
  : result (A * nat) :=
  match seq !! (rand k mod length seq)%nat with
  | Some a => Ok (a, S k)
  | None => Raise IndexError
  end.

(** [mutate_boggle(board, letters)]: mutates [board] in place and returns
    [(s, old_letter)]; here the mutated board is returned with them. *)
Definition mutate_boggle (board : Board) (letters : string)
    (rand : nat → nat) (k : nat)
  : result (Board * (square * string) * nat) :=
  '(s, k) ← random_choice rand k (squares board);
  old_letter ← dict_get (tiles board) s;
  '(L, k) ← random_choice rand k (chars letters);
  Ok (set_tile board s L, (s, old_letter), k).

Section HillClimbing.

(** The global [WORDS], read by [total_score], and the arguments [words]
    and [prefixes] that [boggle_hill_climbing] hands to [find_words]. *)
Context (WORDS : gset string) (words prefixes : gset string).
Context (rand : nat → nat).

(** [total_score(find_words(board, words, prefixes))] *)
Definition board_score (board : Board) : result Z :=
  found ← find_words board words prefixes;
  total_score WORDS found default_scores.

(** One pass through the body of the [for] loop. *)
Definition hill_iteration (board : Board) (best_score : Z) (k : nat)
  : result (Board * Z * nat) :=
  '(board, (s, old_letter), k) ← mutate_boggle board LETTERS rand k;
  new_score ← board_score board;
  if best_score <=? new_score
  then Ok (board, new_score, k)
  else Ok (set_tile board s old_letter, best_score, k).

(** [for _ in range(repeat): ...] *)
Fixpoint hill_loop (repeat : nat) (board : Board) (best_score : Z) (k : nat)
  : result (Board * Z * nat) :=
  match repeat with
  | O => Ok (board, best_score, k)
  | S repeat' =>
    '(board, best_score, k) ← hill_iteration board best_score k;
    hill_loop repeat' board best_score k
  end.

(** [Board(board[s] for s in board.squares)] *)
Definition copy_board (board : Board) : result Board :=
  letters ← mapM (dict_get (tiles board)) (squares board);
  Board_init (Some letters).

(** [boggle_hill_climbing(board, words, prefixes, repeat)] *)
Definition boggle_hill_climbing (board : Board) (repeat : nat)
  : result Board :=
  board ← copy_board board;
  best_score ← board_score board;
  '(board, _, _) ← hill_loop repeat board best_score 0%nat;
  Ok board.

End HillClimbing.

(** ** Notions the properties are stated with *)

(** The exceptions a computation may raise all satisfy [E]. *)
Definition raises_only {A} (E : exn → Prop) (r : result A) : Prop :=
  match r with
  | Ok _ => True
  | Raise e => E e
  end.

(** A coordinate of an [n] by [n] grid. *)
Definition in_bounds (n : Z) (s : square) : Prop :=
  0 ≤ s.1 < n ∧ 0 ≤ s.2 < n.

(** Chebyshev distance between two coordinates. *)
Definition chebyshev (s t : square) : Z :=
  Z.max (Z.abs (s.1 - t.1)) (Z.abs (s.2 - t.2)).

(** Two distinct cells of the grid, one king's move apart. *)
Definition adjacent (n : Z) (s t : square) : Prop :=
  in_bounds n s ∧ in_bounds n t ∧ chebyshev s t = 1 ∧ s ≠ t.

(** Each consecutive pair of a path is adjacent. *)
Definition steps_adjacent (n : Z) (path : list square) : Prop :=
  ∀ i s t, path !! i = Some s → path !! S i = Some t → adjacent n s t.

(** The concatenation of the tiles along a path; [None] when the path
    leaves the tiles of the board. *)
Fixpoint spell (board : Board) (path : list square) : option string :=
  match path with
  | [] => Some ""
  | s :: path' =>
    L ← tiles board !! s; w ← spell board path'; Some (L +:+ w)
  end.

(** A word is witnessed by a simple path of adjacent cells spelling it. *)
Definition witnessed (n : Z) (board : Board) (w : string) : Prop :=
  ∃ path : list square,
    path ≠ [] ∧ NoDup path ∧ (∀ s, s ∈ path → in_bounds n s) ∧
    steps_adjacent n path ∧ spell board path = Some w.

(** The attributes [squares] and [neighbors] of an [n] by [n] board, as
    [Board.__init__] sets them; nothing writes them afterwards. *)
Definition board_shape (n : Z) (board : Board) : Prop :=
  squares board = board_squares n ∧
  board_neighbors board
  = dict_update ∅ ((λ s, (s, neighbors s n)) <$> board_squares n).

(** A board of that shape whose dict has exactly the squares as keys. *)
Definition board_wf (n : Z) (board : Board) : Prop :=
  board_shape n board ∧ ∀ s, s ∈ squares board ↔ is_Some (tiles board !! s).

(** The board [Board.__init__] builds from a letter sequence. *)
Definition Board_of (letters : list string) : Board :=
  {| tiles :=
       dict_update ∅ (zip (board_squares (board_size (board_letters letters)))
                          (board_letters letters));
     squares := board_squares (board_size (board_letters letters));
     board_neighbors :=
       dict_update ∅ ((λ s, (s, neighbors s (board_size (board_letters letters))))
                      <$> board_squares (board_size (board_letters letters))) |}.

(** A path of the search: its first square followed by squares stepped
    to, without repetition. *)
Definition is_search_path (board : Board) (path : list square) : Prop :=
  NoDup path ∧ ∃ s rest, path = s :: rest ∧ rest ⊆ reachable_squares board.

(** The (path, prefix) pairs of a search on an [n] by [n] board. *)
Definition simple_path_spelling (n : Z) (board : Board)
    (path : list square) (prefix : string) : Prop :=
  path ≠ [] ∧ NoDup path ∧ (∀ s, s ∈ path → in_bounds n s) ∧
  steps_adjacent n path ∧ spell board path = Some prefix.

(** The payout table in the words of the specification. *)
Definition payout (len : nat) : Z :=
  match len with
  | 0%nat | 1%nat | 2%nat => 0
  | 3%nat => 1
  | 4%nat => 1
  | 5%nat => 2
  | 6%nat => 3
  | 7%nat => 5
  | _ => 11
  end.

(** The specification's total: the sum of [payout] over [found ∩ words]. *)
Definition payout_total (found words : gset string) : Z :=
  set_fold (λ w acc, payout (String.length w) + acc) 0 (found ∩ words).

Definition perfect_square (m : nat) : Prop := ∃ r : nat, (r * r = m)%nat.

(** A tile: one character in A to Z, or the two characters QU. *)
Definition valid_tile (L : string) : Prop :=
  (∃ c, L = String c EmptyString ∧ (65 ≤ nat_of_ascii c ≤ 90)%nat) ∨ L = "QU".

(** A decision procedure for [valid_tile]. *)
Definition valid_tileb (L : string) : bool :=
  match L with
  | String c EmptyString =>
    (65 <=? nat_of_ascii c)%nat && (nat_of_ascii c <=? 90)%nat
  | _ => String.eqb L "QU"
  end.

(** A tile the constructor hands back unchanged: it passes the A-Z filter
    and is not the bare letter Q. *)
Definition copy_stable (L : string) : Prop :=
  keep_letter L = true ∧ L ≠ "Q".

Definition tiles_valid (board : Board) : Prop :=
  ∀ s L, tiles board !! s = Some L → valid_tile L.

(** An element of the input of [Board]: a single character, or a tile. *)
Definition letter_or_tile (L : string) : Prop :=
  String.length L = 1%nat ∨ L = "QU".

(** A token of the word list that [WORDS] keeps. *)
Definition qualifying (text : string) (w : string) : Prop :=
  w ∈ str_split (upper text) ∧ (3 ≤ String.length w)%nat.

(** ** Boards and word lists used as examples *)

(** ['A' * n] *)
Fixpoint str_repeat (c : ascii) (n : nat) : string :=
  match n with
  | O => EmptyString
  | S n' => String c (str_repeat c n')
  end.

Definition long_word : string := str_repeat "A"%char 107.

Definition cat_words : gset string := {["CAT"; "CATS"; "CATER"]}.

(** [Board('CAAT')] *)
Definition cat_board : Board := Board_of (chars "CAAT").

Definition qat_words : gset string := {["QAT"]}.

(** [Board('XATA')] *)
Definition xata_board : Board := Board_of (chars "XATA").

(** The board [Q A / T A]: what one accepted mutation of the top left
    square of [Board('XATA')] to the letter Q leaves. *)
Definition qat_board : Board :=
  {| tiles := dict_update ∅ (zip (board_squares 2) (chars "QATA"));
     squares := board_squares 2;
     board_neighbors :=
       dict_update ∅ ((λ s, (s, neighbors s 2)) <$> board_squares 2) |}.

(** A random source: draw 0 is 0 (the first square) and every later draw
    is 83 (the index of Q in [LETTERS]). *)
Definition first_square_then_Q (k : nat) : nat :=
  match k with
  | O => 0%nat
  | S _ => 83%nat
  end.

(** ** Notions for the further properties *)

(** [extends_to board words prefixes path prefix w]: the search that stands
    at [path] with the prefix string [prefix] reaches the word [w], by
    recording [prefix] itself or by stepping on through a prefix. *)
Inductive extends_to (board : Board) (words prefixes : gset string)
  : list square → string → string → Prop :=
  | extends_here path prefix :
      prefix ∈ words → extends_to board words prefixes path prefix prefix
  | extends_step path prefix tip ns s L w :
      prefix ∈ prefixes → last path = Some tip →
      board_neighbors board !! tip = Some ns → s ∈ ns → s ∉ path →
      tiles board !! s = Some L →
      extends_to board words prefixes (path ++ [s]) (prefix +:+ L) w →
      extends_to board words prefixes path prefix w.

(** ** Printing a board and drawing a random one *)

(** [str.lower] on the letters A to Z. *)
Definition lower_char (c : ascii) : ascii :=
  let n := nat_of_ascii c in
  if (65 <=? n)%nat && (n <=? 90)%nat then ascii_of_nat (n + 32) else c.

Fixpoint lower (s : string) : string :=
  match s with
  | EmptyString => EmptyString
  | String c s' => String (lower_char c) (lower s')
  end.

(** [str.capitalize]: the first character upper-cased, the others
    lower-cased. *)
Definition capitalize (s : string) : string :=
  match s with
  | EmptyString => EmptyString
  | String c s' => String (upper_char c) (lower s')
  end.

(** ['\n'] *)
Definition newline : string := String (ascii_of_nat 10) EmptyString.

(** ['{:2s}'.format(s)]: [s] padded with blanks on the right to two
    characters; a longer [s] is not cut. *)
Definition format_2s (s : string) : string :=
  s +:+ str_repeat " "%char (2 - String.length s).

(** [('\n'.join(['{:2s}' * n] * n)).format], the attribute [format] of a
    board of side [n], called with the arguments [args]: the fields take
    the arguments in order, and a field without argument raises
    [IndexError]; arguments beyond the fields are ignored. *)
Definition Board_format (n : Z) (args : list string) : result string :=
  rows ← mapM (λ y,
                 cells ← mapM (λ x, format_2s <$> list_get args (Z.to_nat (y * n + x)))
                              (range n);
                 Ok (String.concat "" cells))
              (range n);
  Ok (String.concat newline rows).

(** [Board.__repr__(self)], for a board built with side [n] (which its
    attribute [format] closes over). *)
Definition Board_repr (n : Z) (board : Board) : result string :=
  args ← mapM (λ s, capitalize <$> dict_get (tiles board) s) (squares board);
  Board_format n args.

(** The selection loop of [random.sample]: [k] times, draw a position
    [j] among the first [length pool] items, take [pool[j]], and move the
    last item of the pool into its place. *)
Fixpoint sample_pool {A} (rand : nat → nat) (d : nat) (pool : list A) (k : nat)
  : list A :=
  match k with
  | O => []
  | S k' =>
    let j := (rand d mod length pool)%nat in
    match pool !! j, last pool with
    | Some a, Some z =>
      a :: sample_pool rand (S d) (take (length pool - 1) (<[j := z]> pool)) k'
    | _, _ => []
    end
  end.

(** The exception of [random.sample]. *)
Inductive sample_error : Type :=
  | ValueError.

(** [random.sample(population, k)]: [ValueError] unless
    [0 <= k <= len(population)]; otherwise [k] items from distinct
    positions, drawn with the source [rand] from draw [d] on.  (The
    library selects from a pool, or for a large population by drawing
    positions again until they are new; both reach the same samples.) *)
Definition random_sample {A} (rand : nat → nat) (d : nat) (population : list A)
    (k : Z) : sample_error + list A :=
  if (0 <=? k) && (k <=? Z.of_nat (length population))
  then inr (sample_pool rand d population (Z.to_nat k))
  else inl ValueError.

(** [random_board(n, letters)]: [Board(random.sample(letters, n * n))]. *)
Definition random_board (rand : nat → nat) (d : nat) (n : Z) (letters : string)
  : sample_error + result Board :=
  match random_sample rand d (chars letters) (n * n) with
  | inl e => inl e
  | inr sample => inr (Board_init (Some sample))
  end.

(** The text of one cell of the printed board. *)
Definition cell_text (board : Board) (s : square) : string :=
  match tiles board !! s with
  | Some L => format_2s (capitalize L)
  | None => ""
  end.

(** ** Loops and exceptions *)

Lemma bind_Ok {A B} (m : result A) (f : A → result B) (b : B) :
  m ≫= f = Ok b ↔ ∃ a, m = Ok a ∧ f a = Ok b.
Proof.
  destruct m as [a|e]; simpl.
  - split; [eauto | intros (a' & [= <-] & ?); done].
  - split; [done | intros (? & ? & ?); done].
Qed.

Lemma dict_get_Ok `{Countable K} {V} (d : gmap K V) k v :
  dict_get d k = Ok v ↔ d !! k = Some v.
Proof. unfold dict_get. destruct (d !! k); split; congruence. Qed.

Lemma for_each_inv {A S} (P : S → Prop) (body : S → A → result S) l st st' :
  P st →
  (∀ st a st', a ∈ l → P st → body st a = Ok st' → P st') →
  for_each body st l = Ok st' → P st'.
Proof.
  revert st. induction l as [|a l IH]; intros st Hst Hbody; simpl.
  - by intros [= <-].
  - intros (st1 & H1 & H2)%bind_Ok.
    apply (IH st1); [| |done].
    + eapply Hbody; [left | done..].
    + intros ? ? ? ?. apply Hbody. by right.
Qed.

Lemma for_each_raises_only {A S} E (body : S → A → result S) l st :
  (∀ st a, a ∈ l → raises_only E (body st a)) →
  raises_only E (for_each body st l).
Proof.
  revert st. induction l as [|a l IH]; intros st Hbody; simpl; [done|].
  pose proof (Hbody st a ltac:(left)) as Ha.
  destruct (body st a) as [st1|e]; simpl; [|done].
  apply IH. intros ? ? ?. apply Hbody. by right.
Qed.

Lemma raises_only_False {A} (r : result A) :
  raises_only (λ _, False) r → ∃ a, r = Ok a.
Proof. destruct r; [eauto | done]. Qed.

(** ** Invariants of the search *)

Section ContinuePath.

Context (board : Board) (words prefixes : gset string).

(** [Q] holds of every (path, prefix) pair the search visits and [R] of
    every word it records. *)
Context (Q : list square → string → Prop) (R : string → Prop).
Hypothesis Q_extend : ∀ path prefix tip ns s L,
  Q path prefix → last path = Some tip →
  board_neighbors board !! tip = Some ns → s ∈ ns → s ∉ path →
  tiles board !! s = Some L → Q (path ++ [s]) (prefix +:+ L).
Hypothesis Q_record : ∀ path prefix,
  Q path prefix → prefix ∈ words → R prefix.

Lemma continue_path_inv depth : ∀ path prefix found found',
  Q path prefix → (∀ w, w ∈ found → R w) →
  continue_path depth board words prefixes path prefix found = Ok found' →
  ∀ w, w ∈ found' → R w.
Proof.
  induction depth as [|depth IH]; intros path prefix found found' HQ Hfound;
    simpl; [done|].
  set (found1 := if decide (prefix ∈ words) then _ else _).
  assert (Hfound1 : ∀ w, w ∈ found1 → R w).
  { subst found1. case_decide; [|done].
    intros w [Hw%elem_of_singleton|?]%elem_of_union; [subst w|]; eauto. }
  clearbody found1. case_decide; [|by intros [= <-]].
  unfold list_last, dict_get.
  destruct (last path) as [tip|] eqn:Htip; simpl; [|done].
  destruct (board_neighbors board !! tip) as [ns|] eqn:Hns; simpl; [|done].
  apply (for_each_inv (λ f, ∀ w, w ∈ f → R w)); [done|].
  intros st s st' Hs Hst. case_decide; [by intros [= <-]|].
  destruct (tiles board !! s) as [L|] eqn:HL; simpl; [|done].
  apply IH; [|done]. eapply Q_extend; eauto.
Qed.

Lemma find_words_inv found :
  (∀ s L, s ∈ squares board → tiles board !! s = Some L → Q [s] L) →
  find_words board words prefixes = Ok found →
  ∀ w, w ∈ found → R w.
Proof.
  intros Hstart. unfold find_words.
  apply (for_each_inv (λ f, ∀ w, w ∈ f → R w)); [set_solver|].
  intros st s st' Hs Hst (L & HL%dict_get_Ok & Hgo)%bind_Ok.
  eapply continue_path_inv; eauto.
Qed.

End ContinuePath.

(** ** Which exceptions the search can raise *)

Section ContinuePathRaises.

Context (board : Board) (words prefixes : gset string).
Context (E : exn → Prop) (Inv : list square → Prop) (bound : nat).
Hypothesis Inv_last : ∀ path, Inv path → raises_only E (list_last path).
Hypothesis Inv_neighbors : ∀ path tip,
  Inv path → last path = Some tip →
  raises_only E (dict_get (board_neighbors board) tip).
Hypothesis Inv_step : ∀ path tip ns s,
  Inv path → last path = Some tip →
  board_neighbors board !! tip = Some ns → s ∈ ns → s ∉ path →
  raises_only E (dict_get (tiles board) s) ∧ Inv (path ++ [s]).
Hypothesis Inv_bound : ∀ path, Inv path → (length path ≤ bound)%nat.

Lemma continue_path_raises_only depth : ∀ path prefix found,
  Inv path → (bound + 1 ≤ depth + length path)%nat →
  raises_only E (continue_path depth board words prefixes path prefix found).
Proof.
  induction depth as [|depth IH]; intros path prefix found HInv Hdepth.
  { apply Inv_bound in HInv. lia. }
  simpl. case_decide; [|done].
  pose proof (Inv_last _ HInv) as Hlast. unfold list_last in *.
  destruct (last path) as [tip|] eqn:Htip; simpl; [|done].
  pose proof (Inv_neighbors _ _ HInv Htip) as Hns. unfold dict_get in Hns |- *.
  destruct (board_neighbors board !! tip) as [ns|] eqn:Hnb; simpl; [|done].
  apply for_each_raises_only. intros st s Hs. case_decide; [done|].
  destruct (Inv_step _ _ _ _ HInv Htip Hnb Hs) as [HL HInv']; [done|].
  unfold dict_get in HL |- *.
  destruct (tiles board !! s) as [L|]; simpl; [|done].
  apply IH; [done|]. rewrite length_app. simpl. lia.
Qed.

End ContinuePathRaises.

Lemma elem_of_reachable_squares board tip ns s :
  board_neighbors board !! tip = Some ns → s ∈ ns →
  s ∈ reachable_squares board.
Proof.
  intros Hns Hs. unfold reachable_squares.
  apply list_elem_of_bind. exists (tip, ns). split; [done|].
  by apply elem_of_map_to_list.
Qed.

Lemma is_search_path_length board path :
  is_search_path board path → (length path ≤ search_depth board)%nat.
Proof.
  intros (Hnd & s & rest & -> & Hrest). unfold search_depth. simpl.
  apply NoDup_cons in Hnd as [_ Hnd].
  apply le_n_S, submseteq_length, NoDup_submseteq; done.
Qed.

Lemma is_search_path_snoc board path tip ns s :
  is_search_path board path → board_neighbors board !! tip = Some ns →
  s ∈ ns → s ∉ path → is_search_path board (path ++ [s]).
Proof.
  intros (Hnd & s0 & rest & -> & Hrest) Hns Hs Hnotin. split.
  - apply NoDup_app. split_and!; [done| |apply NoDup_singleton].
    intros x Hx ->%list_elem_of_singleton. done.
  - exists s0, (rest ++ [s]). split; [done|].
    intros x [?|Hx%list_elem_of_singleton]%elem_of_app; [by apply Hrest|].
    subst x. by eapply elem_of_reachable_squares.
Qed.

Lemma is_search_path_singleton board s : is_search_path board [s].
Proof.
  split; [apply NoDup_singleton|]. exists s, []. split; [done|].
  intros x Hx. by apply elem_of_nil in Hx.
Qed.

(** The search never exhausts the depth [find_words] gives it, on any
    board. *)
Lemma find_words_no_RecursionError board words prefixes :
  find_words board words prefixes ≠ Raise RecursionError.
Proof.
  assert (raises_only (λ e, e ≠ RecursionError)
            (find_words board words prefixes)) as H.
  { unfold find_words. apply for_each_raises_only. intros st s Hs.
    unfold dict_get at 1. destruct (tiles board !! s) as [L|]; [|done].
    change (raises_only (λ e, e ≠ RecursionError)
              (continue_path (search_depth board) board words prefixes [s] L st)).
    apply (continue_path_raises_only board words prefixes _
             (is_search_path board) (search_depth board)).
    - intros path _. unfold list_last. by destruct (last path).
    - intros path tip _ _. unfold dict_get. by destruct (_ !! tip).
    - intros path tip ns s' HInv _ Hns Hs' Hnotin. split.
      + unfold dict_get. by destruct (_ !! s').
      + by eapply is_search_path_snoc.
    - apply is_search_path_length.
    - apply is_search_path_singleton.
    - simpl. lia. }
  intros Heq. rewrite Heq in H. by apply H.
Qed.

(** ** The shape of a board *)

Lemma elem_of_range n x : x ∈ range n ↔ 0 ≤ x < n.
Proof. unfold range. rewrite elem_of_seqZ. lia. Qed.

Lemma elem_of_board_squares n s : s ∈ board_squares n ↔ in_bounds n s.
Proof.
  destruct s as [x y]. unfold board_squares, in_bounds. simpl. split.
  - intros (y' & Hin & Hy)%list_elem_of_bind.
    apply list_elem_of_bind in Hin as (x' & Hin & Hx).
    apply list_elem_of_singleton in Hin as [= -> ->].
    by apply elem_of_range in Hx, Hy.
  - intros [Hx Hy]. apply list_elem_of_bind. exists y.
    split; [|by apply elem_of_range].
    apply list_elem_of_bind. exists x.
    split; [by apply list_elem_of_singleton | by apply elem_of_range].
Qed.

Lemma NoDup_board_squares n : NoDup (board_squares n).
Proof.
  unfold board_squares. apply NoDup_bind.
  - intros y1 y2 s _ _ (x1 & ->%list_elem_of_singleton & _)%list_elem_of_bind
      (x2 & [= _ ->]%list_elem_of_singleton & _)%list_elem_of_bind. done.
  - intros y _. apply NoDup_bind.
    + intros x1 x2 s _ _ ->%list_elem_of_singleton
        [= ->]%list_elem_of_singleton. done.
    + intros. apply NoDup_singleton.
    + apply NoDup_seqZ.
  - apply NoDup_seqZ.
Qed.

Lemma length_row (n y : Z) :
  length (x ← range n; [(x, y)]) = Z.to_nat n.
Proof.
  unfold range. rewrite <- (length_seqZ 0 n).
  induction (seqZ 0 n) as [|x l IH]; simpl; [done|]. by rewrite <- IH.
Qed.

Lemma length_board_squares n :
  length (board_squares n) = (Z.to_nat n * Z.to_nat n)%nat.
Proof.
  unfold board_squares.
  assert (∀ l : list Z,
    length (y ← l; x ← range n; [(x, y)]) = (length l * Z.to_nat n)%nat) as H.
  { induction l as [|y l IH]; [done|].
    change (length ((x ← range n; [(x, y)]) ++ (y ← l; x ← range n; [(x, y)]))
            = (S (length l) * Z.to_nat n)%nat).
    rewrite length_app, length_row, IH. lia. }
  rewrite H. unfold range. by rewrite length_seqZ.
Qed.

Lemma dict_update_lookup_notin `{Countable K} {V} (d : gmap K V) kvs k :
  k ∉ kvs.*1 → dict_update d kvs !! k = d !! k.
Proof.
  revert d. induction kvs as [|[k' v] kvs IH]; intros d Hk; [done|].
  simpl in *. apply not_elem_of_cons in Hk as [Hne Hk].
  unfold dict_update in *. simpl. rewrite IH by done.
  by apply lookup_insert_ne.
Qed.

Lemma dict_update_lookup_NoDup `{Countable K} {V} (d : gmap K V) kvs i k v :
  NoDup kvs.*1 → kvs !! i = Some (k, v) → dict_update d kvs !! k = Some v.
Proof.
  revert d i. induction kvs as [|[k' v'] kvs IH]; intros d i Hnd Hi; [done|].
  simpl in Hnd. apply NoDup_cons in Hnd as [Hk' Hnd].
  unfold dict_update in *. destruct i as [|i]; simpl in *.
  - injection Hi as -> ->.
    fold (dict_update (<[k:=v]> d) kvs).
    rewrite dict_update_lookup_notin by done. apply lookup_insert_eq.
  - by eapply IH.
Qed.

Lemma neighbors_dict_lookup n (sqs : list square) s :
  dict_update (∅ : gmap square (list square)) ((λ s, (s, neighbors s n)) <$> sqs) !! s
  = if decide (s ∈ sqs) then Some (neighbors s n) else None.
Proof.
  unfold dict_update.
  assert (∀ d : gmap square (list square),
    foldl (λ m kv, <[kv.1:=kv.2]> m) d ((λ s, (s, neighbors s n)) <$> sqs) !! s
    = if decide (s ∈ sqs) then Some (neighbors s n) else d !! s) as H.
  { induction sqs as [|s' sqs IH]; intros d; simpl.
    - destruct (decide (s ∈ [])) as [Hin|_]; [by apply elem_of_nil in Hin | done].
    - rewrite IH. destruct (decide (s ∈ sqs)) as [Hin|Hnotin].
      + rewrite decide_True; [done | by right].
      + destruct (decide (s' = s)) as [->|Hne].
        * rewrite decide_True by left. apply lookup_insert_eq.
        * rewrite decide_False; [by apply lookup_insert_ne|].
          intros [?|?]%elem_of_cons; congruence. }
  rewrite H. by case_decide.
Qed.

Lemma elem_of_offsets (d : Z) : d ∈ [-1; 0; 1] ↔ -1 ≤ d ≤ 1.
Proof.
  rewrite !elem_of_cons, elem_of_nil. lia.
Qed.

Lemma elem_of_neighbors s t n :
  t ∈ neighbors s n ↔ in_bounds n t ∧ chebyshev s t = 1.
Proof.
  destruct s as [x y], t as [x' y']. unfold neighbors, in_bounds, chebyshev.
  simpl fst; simpl snd. split.
  - intros (dx & Hin & Hdx%elem_of_offsets)%list_elem_of_bind.
    apply list_elem_of_bind in Hin as (dy & Hin & Hdy%elem_of_offsets).
    destruct (_ && _) eqn:Hc in Hin; [|by apply elem_of_nil in Hin].
    apply list_elem_of_singleton in Hin as [= -> ->].
    rewrite !andb_true_iff, negb_true_iff, andb_false_iff in Hc.
    rewrite !Z.leb_le, !Z.ltb_lt, !Z.eqb_neq in Hc. lia.
  - intros [[Hx Hy] Hd]. apply list_elem_of_bind. exists (x' - x).
    split; [|apply elem_of_offsets; lia].
    apply list_elem_of_bind. exists (y' - y).
    split; [|apply elem_of_offsets; lia].
    replace (x + (x' - x)) with x' by lia.
    replace (y + (y' - y)) with y' by lia.
    destruct (_ && _) eqn:Hc; [by left|]. exfalso.
    rewrite !andb_false_iff, negb_false_iff, andb_true_iff in Hc.
    rewrite !Z.leb_gt, !Z.ltb_ge, !Z.eqb_eq in Hc. lia.
Qed.

(** ** Strings *)

Lemma str_app_nil_r (s : string) : s +:+ "" = s.
Proof.
  induction s as [|c s IH]; [done|].
  change (String c (s +:+ "") = String c s). by rewrite IH.
Qed.

Lemma str_app_assoc (s1 s2 s3 : string) :
  (s1 +:+ s2) +:+ s3 = s1 +:+ (s2 +:+ s3).
Proof.
  induction s1 as [|c s1 IH]; [done|].
  change (String c ((s1 +:+ s2) +:+ s3) = String c (s1 +:+ (s2 +:+ s3))).
  by rewrite IH.
Qed.

Lemma spell_singleton board s L :
  tiles board !! s = Some L → spell board [s] = Some L.
Proof. intros H. simpl. rewrite H. simpl. by rewrite str_app_nil_r. Qed.

Lemma spell_snoc board path s w L :
  spell board path = Some w → tiles board !! s = Some L →
  spell board (path ++ [s]) = Some (w +:+ L).
Proof.
  revert w. induction path as [|s' path IH]; intros w Hw HL; simpl in *.
  - injection Hw as <-. rewrite HL. simpl. by rewrite str_app_nil_r.
  - destruct (tiles board !! s') as [L'|]; simpl in *; [|done].
    destruct (spell board path) as [w'|]; simpl in *; [|done].
    injection Hw as <-. rewrite (IH w') by done. simpl.
    by rewrite str_app_assoc.
Qed.

(** ** What [find_words] returns *)

Lemma board_shape_neighbors n board tip ns :
  board_shape n board → board_neighbors board !! tip = Some ns →
  tip ∈ squares board ∧ ns = neighbors tip n.
Proof.
  intros [Hsq Hnb]. rewrite Hnb, neighbors_dict_lookup, Hsq.
  case_decide; [|done]. by intros [= <-].
Qed.

Lemma steps_adjacent_snoc n path tip s :
  steps_adjacent n path → last path = Some tip → adjacent n tip s →
  steps_adjacent n (path ++ [s]).
Proof.
  intros Hpath Htip Hadj i a b Ha Hb. rewrite last_lookup in Htip.
  assert (S i < length (path ++ [s]))%nat as Hlen
    by (by eapply lookup_lt_Some).
  rewrite length_app in Hlen. simpl in Hlen.
  destruct (decide (S i < length path)%nat) as [Hlt|Hge].
  - rewrite lookup_app_l in Ha, Hb by lia. by eapply Hpath.
  - assert (S i = length path) as Hi by lia.
    rewrite lookup_app_l in Ha by lia.
    rewrite lookup_app_r, Hi, Nat.sub_diag in Hb by lia.
    injection Hb as <-. rewrite <- Hi in Htip. simpl in Htip. congruence.
Qed.

Lemma last_elem_of {A} (l : list A) (a : A) : last l = Some a → a ∈ l.
Proof. rewrite last_lookup. apply list_elem_of_lookup_2. Qed.

Lemma simple_path_spelling_start n board s L :
  board_shape n board → s ∈ squares board → tiles board !! s = Some L →
  simple_path_spelling n board [s] L.
Proof.
  intros [Hsq _] Hs HL. split_and!.
  - done.
  - apply NoDup_singleton.
  - intros s' ->%list_elem_of_singleton.
    apply elem_of_board_squares. by rewrite <- Hsq.
  - intros [|i] a b Ha Hb; done.
  - by apply spell_singleton.
Qed.

Lemma simple_path_spelling_extend n board path prefix tip ns s L :
  board_shape n board →
  simple_path_spelling n board path prefix → last path = Some tip →
  board_neighbors board !! tip = Some ns → s ∈ ns → s ∉ path →
  tiles board !! s = Some L →
  simple_path_spelling n board (path ++ [s]) (prefix +:+ L).
Proof.
  intros Hshape (Hne & Hnd & Hin & Hadj & Hsp) Htip Hns Hs Hnotin HL.
  destruct (board_shape_neighbors _ _ _ _ Hshape Hns) as [_ ->].
  apply elem_of_neighbors in Hs as [Hs Hd].
  pose proof (last_elem_of _ _ Htip) as Htip_in.
  split_and!.
  - by destruct path.
  - apply NoDup_app. split_and!; [done| |apply NoDup_singleton].
    intros x Hx Hx'%list_elem_of_singleton. by subst x.
  - intros x [?|Hx%list_elem_of_singleton]%elem_of_app; [by apply Hin|].
    by subst x.
  - eapply steps_adjacent_snoc; [done..|]. split_and!; [by apply Hin|done..|].
    intros ->. done.
  - by apply spell_snoc.
Qed.

(** C1.  Every string in the set [find_words] returns is in [words]: no
    string outside the dictionary is ever returned.  This holds for every
    board, every word set and every prefix set. *)
Theorem find_words_only_words board words prefixes found w :
  find_words board words prefixes = Ok found → w ∈ found → w ∈ words.
Proof.
  intros Hfw. revert w.
  apply (find_words_inv board words prefixes (λ _ _, True) (λ w, w ∈ words)
           ltac:(done) ltac:(done) found); done.
Qed.

(** C2.  On an [n] by [n] board, every word [find_words] returns is spelled
    by a path of grid coordinates that repeats no coordinate and whose
    consecutive coordinates are adjacent: both within bounds, at Chebyshev
    distance 1, and distinct. *)
Theorem find_words_witnessed n board words prefixes found w :
  board_shape n board →
  find_words board words prefixes = Ok found → w ∈ found →
  witnessed n board w.
Proof.
  intros Hshape Hfw. revert w.
  apply (find_words_inv board words prefixes
           (simple_path_spelling n board) (witnessed n board)); [| | |done].
  - intros. by eapply simple_path_spelling_extend.
  - intros path prefix HQ _. by exists path.
  - intros. by apply simple_path_spelling_start.
Qed.

(** On a well-formed board [find_words] raises nothing and returns a set. *)
Lemma find_words_returns n board words prefixes :
  board_wf n board → ∃ found, find_words board words prefixes = Ok found.
Proof.
  intros [Hshape Htiles]. apply raises_only_False.
  unfold find_words. apply for_each_raises_only. intros st s Hs.
  destruct (proj1 (Htiles s) Hs) as [L HL].
  unfold dict_get at 1. rewrite HL.
  change (raises_only (λ _, False)
            (continue_path (search_depth board) board words prefixes [s] L st)).
  apply (continue_path_raises_only board words prefixes _
           (λ path, is_search_path board path ∧ ∀ s, s ∈ path → s ∈ squares board)
           (search_depth board)).
  - intros path [(_ & s0 & rest & -> & _) _]. unfold list_last.
    by rewrite last_cons; destruct (last rest).
  - intros path tip [_ Hin] Htip%last_elem_of.
    destruct Hshape as [Hsq Hnb]. unfold dict_get.
    rewrite Hnb, neighbors_dict_lookup, <- Hsq.
    by rewrite decide_True by auto.
  - intros path tip ns s' [Hpath Hin] Htip Hns Hs' Hnotin.
    destruct (board_shape_neighbors _ _ _ _ Hshape Hns) as [_ ->].
    assert (s' ∈ squares board) as Hsq'.
    { destruct Hshape as [-> _]. apply elem_of_board_squares.
      by apply elem_of_neighbors in Hs' as [? _]. }
    split_and!.
    + unfold dict_get. by destruct (proj1 (Htiles s') Hsq') as [? ->].
    + by eapply is_search_path_snoc.
    + intros x [?|Hx%list_elem_of_singleton]%elem_of_app; [auto|by subst x].
  - intros path [Hpath _]. by apply is_search_path_length.
  - split; [apply is_search_path_singleton|].
    by intros x ->%list_elem_of_singleton.
  - simpl. lia.
Qed.

(** ** Scoring *)

Lemma mapM_Ok_fmap {A B} (f : A → result B) (g : A → B) (l : list A) :
  (∀ x, x ∈ l → f x = Ok (g x)) → mapM f l = Ok (g <$> l).
Proof.
  induction l as [|x l IH]; intros Hf; [done|].
  simpl. rewrite (Hf x) by left. simpl.
  rewrite IH; [done|]. intros. apply Hf. by right.
Qed.

Lemma mapM_Ok_inv {A B} (f : A → result B) (l : list A) (ys : list B) x :
  mapM f l = Ok ys → x ∈ l → ∃ y, f x = Ok y.
Proof.
  revert ys. induction l as [|a l IH]; intros ys Hm Hx.
  - by apply elem_of_nil in Hx.
  - simpl in Hm. destruct (f a) as [b|] eqn:Hb; simpl in Hm; [|done].
    destruct (mapM f l) as [bs|] eqn:Hbs; simpl in Hm; [|done].
    apply elem_of_cons in Hx as [->|Hx]; eauto.
Qed.

Lemma mapM_raises_only {A B} E (f : A → result B) (l : list A) :
  (∀ x, x ∈ l → raises_only E (f x)) → raises_only E (mapM f l).
Proof.
  induction l as [|a l IH]; intros Hf; [done|].
  simpl. pose proof (Hf a ltac:(left)) as Ha.
  destruct (f a) as [b|]; simpl; [|done].
  assert (raises_only E (mapM f l)) as Hl.
  { apply IH. intros. apply Hf. by right. }
  by destruct (mapM f l).
Qed.

Lemma length_default_scores : length default_scores = 107%nat.
Proof. reflexivity. Qed.

Lemma default_scores_lookup (len : nat) :
  (len ≤ 106)%nat → default_scores !! len = Some (payout len).
Proof.
  intros Hlen. do 107 (destruct len as [|len]; [reflexivity|]). lia.
Qed.

Lemma default_scores_lookup_ge (len : nat) :
  (107 ≤ len)%nat → default_scores !! len = None.
Proof. intros Hlen. apply lookup_ge_None. by rewrite length_default_scores. Qed.

Lemma py_sum_foldr (l : list Z) : py_sum l = foldr Z.add 0 l.
Proof.
  unfold py_sum.
  assert (∀ a, foldl Z.add a l = a + foldr Z.add 0 l) as H.
  { induction l as [|x l IH]; intros a; simpl; [lia|]. rewrite IH. lia. }
  by rewrite H.
Qed.

Lemma payout_total_foldr (found words : gset string) :
  payout_total found words
  = foldr Z.add 0 ((λ w, payout (String.length w)) <$> elements (found ∩ words)).
Proof.
  unfold payout_total, set_fold. simpl.
  by induction (elements (found ∩ words)) as [|w l IH]; simpl; [|rewrite IH].
Qed.

Lemma total_score_short WORDS found :
  (∀ w, w ∈ found → w ∈ WORDS → (String.length w ≤ 106)%nat) →
  total_score WORDS found default_scores = Ok (payout_total found WORDS).
Proof.
  intros Hlen. unfold total_score.
  rewrite (mapM_Ok_fmap _ (λ w, payout (String.length w))).
  - simpl. by rewrite py_sum_foldr, payout_total_foldr.
  - intros w [??]%elem_of_elements%elem_of_intersection.
    unfold list_get. by rewrite default_scores_lookup by auto.
Qed.

Lemma total_score_Ok_short WORDS found z w :
  total_score WORDS found default_scores = Ok z →
  w ∈ found → w ∈ WORDS → (String.length w ≤ 106)%nat.
Proof.
  unfold total_score. intros Hz Hf HW.
  destruct (mapM _ _) as [ys|] eqn:Hm; simpl in Hz; [|done].
  destruct (mapM_Ok_inv _ _ _ w Hm) as [y Hy].
  { apply elem_of_elements, elem_of_intersection. done. }
  unfold list_get in Hy.
  destruct (decide (String.length w ≤ 106)%nat) as [|Hgt]; [done|].
  rewrite default_scores_lookup_ge in Hy by lia. done.
Qed.

Lemma total_score_raises_IndexError WORDS found :
  raises_only (λ e, e = IndexError) (total_score WORDS found default_scores).
Proof.
  unfold total_score.
  assert (raises_only (λ e, e = IndexError)
            (mapM (λ w, list_get default_scores (String.length w))
                  (elements (found ∩ WORDS)))) as H.
  { apply mapM_raises_only. intros w _. unfold list_get.
    by destruct (default_scores !! _). }
  by destruct (mapM _ _).
Qed.

(** C3 as the code has it.  When every word of [found ∩ WORDS] has at most
    106 letters, [total_score] returns the sum over [found ∩ WORDS] of
    [payout], where [payout] is 0 for lengths 0 to 2, 1 for 3, 1 for 4, 2
    for 5, 3 for 6, 5 for 7 and 11 from 8 on; a string outside [WORDS]
    contributes nothing. *)
Theorem total_score_payout WORDS found :
  (∀ w, w ∈ found → w ∈ WORDS → (String.length w ≤ 106)%nat) →
  total_score WORDS found default_scores = Ok (payout_total found WORDS) ∧
  ∀ s, s ∉ WORDS →
    total_score WORDS ({[s]} ∪ found) default_scores
    = total_score WORDS found default_scores.
Proof.
  intros Hlen. split; [by apply total_score_short|].
  intros s Hs. unfold total_score.
  replace (({[s]} ∪ found) ∩ WORDS) with (found ∩ WORDS); [done|].
  apply set_eq. intros w.
  rewrite !elem_of_intersection, elem_of_union, elem_of_singleton.
  split; [tauto|]. intros [[->|?] ?]; [done | tauto].
Qed.

(** C10.  The payout table has exactly 107 entries, so [total_score]
    returns if and only if every word of [found ∩ WORDS] has at most 106
    letters; with a common word of 107 letters or more it raises
    [IndexError] instead of counting 11 for it. *)
Theorem total_score_table_bound :
  length default_scores = 107%nat ∧
  (∀ WORDS found,
     (∃ z, total_score WORDS found default_scores = Ok z) ↔
     (∀ w, w ∈ found ∩ WORDS → (String.length w ≤ 106)%nat)) ∧
  (∀ WORDS found w,
     w ∈ found ∩ WORDS → (107 ≤ String.length w)%nat →
     total_score WORDS found default_scores = Raise IndexError) ∧
  (long_word ∈ ({[long_word]} : gset string) ∩ {[long_word]} ∧
   String.length long_word = 107%nat ∧
   payout (String.length long_word) = 11 ∧
   total_score {[long_word]} {[long_word]} default_scores = Raise IndexError).
Proof.
  split_and!.
  - reflexivity.
  - intros WORDS found. split.
    + intros [z Hz] w [??]%elem_of_intersection.
      by eapply total_score_Ok_short.
    + intros Hlen. exists (payout_total found WORDS).
      apply total_score_short. intros. apply Hlen. set_solver.
  - intros WORDS found w [Hf HW]%elem_of_intersection Hlen.
    pose proof (total_score_raises_IndexError WORDS found) as Hr.
    destruct (total_score WORDS found default_scores) as [z|e] eqn:Hz.
    + pose proof (total_score_Ok_short _ _ _ _ Hz Hf HW). lia.
    + simpl in Hr. by subst e.
  - set_solver.
  - reflexivity.
  - reflexivity.
  - vm_compute. reflexivity.
Qed.

(** ** Constructing a board *)

Lemma dict_update_lookup_Some `{Countable K} {V} (d : gmap K V) kvs k v :
  dict_update d kvs !! k = Some v → (k, v) ∈ kvs ∨ d !! k = Some v.
Proof.
  revert d. induction kvs as [|[k' v'] kvs IH]; intros d Hk; [by right|].
  unfold dict_update in *. simpl in Hk. apply IH in Hk as [Hin|Hk].
  - left. by right.
  - simpl in Hk. destruct (decide (k' = k)) as [->|Hne].
    + rewrite lookup_insert_eq in Hk. injection Hk as ->. left. left.
    + rewrite lookup_insert_ne in Hk by done. by right.
Qed.

Lemma board_size_sqr (letters : list string) :
  0 ≤ board_size letters ∧
  (Z.to_nat (board_size letters) * Z.to_nat (board_size letters)
   ≤ length letters)%nat.
Proof.
  unfold board_size.
  pose proof (Z.sqrt_spec (Z.of_nat (length letters)) ltac:(lia)) as Hs.
  pose proof (Z.sqrt_nonneg (Z.of_nat (length letters))) as Hn.
  cbv zeta in Hs. split; [done|]. rewrite <- Z2Nat.inj_mul by done. lia.
Qed.

Lemma board_size_not_square (letters : list string) :
  ¬ perfect_square (length letters) →
  (Z.to_nat (board_size letters) * Z.to_nat (board_size letters)
   < length letters)%nat.
Proof.
  intros Hns. destruct (board_size_sqr letters) as [Hn Hle].
  apply Nat.le_neq. split; [done|]. intros Heq. apply Hns.
  by exists (Z.to_nat (board_size letters)).
Qed.

Section BoardInit.

Context (letters : list string).

Lemma Board_init_Some : Board_init (Some letters) = Ok (Board_of letters).
Proof. reflexivity. Qed.

Lemma Board_of_fst_zip :
  (zip (board_squares (board_size (board_letters letters)))
       (board_letters letters)).*1
  = board_squares (board_size (board_letters letters)).
Proof.
  apply fst_zip. rewrite length_board_squares.
  apply (board_size_sqr (board_letters letters)).
Qed.

Lemma length_squares_Board_of :
  (length (squares (Board_of letters)) ≤ length (board_letters letters))%nat.
Proof.
  simpl. rewrite length_board_squares.
  apply (board_size_sqr (board_letters letters)).
Qed.

Lemma Board_of_tile i s :
  squares (Board_of letters) !! i = Some s →
  tiles (Board_of letters) !! s = board_letters letters !! i.
Proof.
  intros Hs.
  assert (i < length (board_letters letters))%nat as [L HL]%lookup_lt_is_Some.
  { apply lookup_lt_Some in Hs. pose proof length_squares_Board_of. lia. }
  rewrite HL. unfold Board_of in Hs |- *. simpl in Hs |- *.
  eapply (dict_update_lookup_NoDup _ _ i).
  - rewrite Board_of_fst_zip. apply NoDup_board_squares.
  - by apply lookup_zip_Some.
Qed.

Lemma Board_of_no_tile s :
  s ∉ squares (Board_of letters) → tiles (Board_of letters) !! s = None.
Proof.
  intros Hs. unfold Board_of in Hs |- *. simpl in Hs |- *.
  rewrite dict_update_lookup_notin; [done|]. by rewrite Board_of_fst_zip.
Qed.

Lemma Board_of_tile_elem_of s L :
  tiles (Board_of letters) !! s = Some L → L ∈ board_letters letters.
Proof.
  intros [Hin|?]%dict_update_lookup_Some; [|done].
  apply list_elem_of_lookup in Hin as [i Hi].
  apply lookup_zip_Some in Hi as [_ Hi]. by eapply list_elem_of_lookup_2.
Qed.

Lemma Board_of_wf :
  board_wf (board_size (board_letters letters)) (Board_of letters).
Proof.
  split; [done|]. intros s. split.
  - intros [i Hi]%list_elem_of_lookup. rewrite (Board_of_tile i s Hi).
    apply lookup_lt_is_Some. apply lookup_lt_Some in Hi.
    pose proof length_squares_Board_of. lia.
  - intros Hs.
    destruct (decide (s ∈ squares (Board_of letters))) as [|Hnot]; [done|].
    rewrite (Board_of_no_tile s Hnot) in Hs. by destruct Hs.
Qed.

Lemma Board_of_tiles_in_order :
  (λ s, tiles (Board_of letters) !! s) <$> squares (Board_of letters)
  = Some <$> take (length (squares (Board_of letters))) (board_letters letters).
Proof.
  apply list_eq. intros i. rewrite !list_lookup_fmap.
  destruct (squares (Board_of letters) !! i) as [s|] eqn:Hs.
  - change (Some (tiles (Board_of letters) !! s)
            = Some <$> take (length (squares (Board_of letters)))
                         (board_letters letters) !! i).
    rewrite (Board_of_tile i s Hs).
    apply lookup_lt_Some in Hs. rewrite lookup_take_lt by done.
    pose proof length_squares_Board_of.
    by destruct (lookup_lt_is_Some_2 (board_letters letters) i ltac:(lia))
      as [L ->].
  - apply lookup_ge_None in Hs. by rewrite lookup_take_ge by done.
Qed.

End BoardInit.

(** C6 as the code has it.  [Board] checks no size: for every input letter
    sequence, also one whose count of valid letters is zero or not a
    perfect square, construction raises nothing and returns a well-formed
    board of side floor(sqrt(count)). *)
Theorem Board_init_no_size_check (letters : list string) :
  ∃ board,
    Board_init (Some letters) = Ok board ∧
    board_wf (Z.sqrt (Z.of_nat (length (board_letters letters)))) board ∧
    length (squares board)
    = (Z.to_nat (Z.sqrt (Z.of_nat (length (board_letters letters))))
       * Z.to_nat (Z.sqrt (Z.of_nat (length (board_letters letters)))))%nat.
Proof.
  exists (Board_of letters). split_and!.
  - apply Board_init_Some.
  - apply Board_of_wf.
  - apply length_board_squares.
Qed.

(** C9.  When the count M of valid letters (after the A-Z filter and the QU
    substitution) is not a perfect square, or is zero, [Board] raises no
    error: with n = floor(sqrt(M)) it returns the n by n board whose tiles,
    in row-major order, are the first n*n valid letters; the other
    M - n*n letters are dropped, and for M = 0 the board has no cell. *)
Theorem Board_init_truncates (letters : list string) :
  let valid := board_letters letters in
  let n := Z.sqrt (Z.of_nat (length valid)) in
  ¬ perfect_square (length valid) ∨ length valid = 0%nat →
  ∃ board,
    Board_init (Some letters) = Ok board ∧
    squares board = board_squares n ∧
    length (squares board) = (Z.to_nat n * Z.to_nat n)%nat ∧
    (λ s, tiles board !! s) <$> squares board
    = Some <$> take (Z.to_nat n * Z.to_nat n) valid ∧
    (∀ s, s ∉ squares board → tiles board !! s = None) ∧
    (¬ perfect_square (length valid) →
     (Z.to_nat n * Z.to_nat n < length valid)%nat) ∧
    (length valid = 0%nat → squares board = [] ∧ tiles board = ∅).
Proof.
  intros valid n _. exists (Board_of letters). split_and!.
  - apply Board_init_Some.
  - done.
  - apply length_board_squares.
  - rewrite Board_of_tiles_in_order. simpl squares.
    by rewrite length_board_squares.
  - apply Board_of_no_tile.
  - apply board_size_not_square.
  - intros Hlen. unfold Board_of. simpl. fold valid.
    apply length_zero_iff_nil in Hlen. by rewrite Hlen.
Qed.

(** ** Tiles *)

Lemma valid_tileb_true L : valid_tileb L = true → valid_tile L.
Proof.
  destruct L as [|c [|c' L]]; unfold valid_tileb.
  - done.
  - intros [?%Nat.leb_le ?%Nat.leb_le]%andb_true_iff. left. eauto.
  - intros ->%String.eqb_eq. by right.
Qed.

Lemma valid_tile_letter_or_tile L : valid_tile L → letter_or_tile L.
Proof. intros [(c & -> & _)| ->]; [by left | by right]. Qed.

Lemma keep_letter_char (c : ascii) :
  keep_letter (String c EmptyString) = true →
  (65 ≤ nat_of_ascii c ≤ 90)%nat.
Proof.
  destruct c as [[] [] [] [] [] [] [] []]; vm_compute; intros; (done || lia).
Qed.

Lemma board_letters_valid letters L :
  Forall letter_or_tile letters → L ∈ board_letters letters →
  valid_tile L ∧ L ≠ "Q".
Proof.
  intros Hall (L0 & -> & [Hkeep Hin]%list_elem_of_filter)%list_elem_of_fmap.
  rewrite Forall_forall in Hall. apply Hall in Hin.
  destruct (String.eqb_spec L0 "Q") as [->|Hne].
  { split; [by right | done]. }
  split; [|done]. destruct Hin as [Hlen| ->]; [|by right].
  destruct L0 as [|c [|c' L0]]; [done| |done].
  left. exists c. split; [done|]. apply keep_letter_char. by destruct (keep_letter _).
Qed.

Lemma LETTERS_valid L : L ∈ chars LETTERS → valid_tile L.
Proof.
  assert (Forall valid_tile (chars LETTERS)) as H.
  { apply Forall_forall. intros L' HL'. apply valid_tileb_true.
    assert (forallb valid_tileb (chars LETTERS) = true) as Hb by reflexivity.
    rewrite forallb_forall in Hb. apply Hb. by apply list_elem_of_In. }
  rewrite Forall_forall in H. apply H.
Qed.

Lemma random_choice_Ok {A} rand k (l : list A) a k' :
  random_choice rand k l = Ok (a, k') ↔
  l !! (rand k mod length l)%nat = Some a ∧ k' = S k.
Proof.
  unfold random_choice.
  destruct (l !! _) as [a'|]; [|split; [done | by intros [? ?]]].
  split; [by intros [= -> <-] | by intros [[= ->] ->]].
Qed.

Lemma mutate_boggle_Ok board letters rand k board' s old_letter k' :
  mutate_boggle board letters rand k = Ok (board', (s, old_letter), k') ↔
  ∃ L, squares board !! (rand k mod length (squares board))%nat = Some s ∧
       tiles board !! s = Some old_letter ∧
       chars letters !! (rand (S k) mod length (chars letters))%nat = Some L ∧
       board' = set_tile board s L ∧ k' = S (S k).
Proof.
  unfold mutate_boggle. split.
  - intros ([s1 k1] & [Hs ->]%random_choice_Ok & H)%bind_Ok.
    apply bind_Ok in H as (old & Hold%dict_get_Ok & H).
    apply bind_Ok in H as ([L k2] & [HL ->]%random_choice_Ok & H).
    injection H as <- <- <- <-. eauto 10.
  - intros (L & Hs & Hold & HL & -> & ->).
    assert (random_choice rand k (squares board) = Ok (s, S k)) as ->
      by (by apply random_choice_Ok).
    simpl. unfold dict_get. rewrite Hold. simpl.
    assert (random_choice rand (S k) (chars letters) = Ok (L, S (S k))) as ->
      by (by apply random_choice_Ok).
    done.
Qed.

Lemma set_tile_valid board s L :
  tiles_valid board → valid_tile L → tiles_valid (set_tile board s L).
Proof.
  intros Hb HL s' L'. simpl. destruct (decide (s = s')) as [->|Hne].
  - rewrite lookup_insert_eq. by intros [= <-].
  - rewrite lookup_insert_ne by done. apply Hb.
Qed.


Section HillClimbingTiles.

Context (WORDS words prefixes : gset string) (rand : nat → nat).



Lemma mapM_dict_get_elem_of (board : Board) sqs letters L :
  mapM (dict_get (tiles board)) sqs = Ok letters → L ∈ letters →
  ∃ s, tiles board !! s = Some L.
Proof.
  revert letters. induction sqs as [|s sqs IH]; intros letters; simpl.
  - intros [= <-] HL. by apply elem_of_nil in HL.
  - intros (L1 & HL1%dict_get_Ok & H)%bind_Ok.
    apply bind_Ok in H as (Ls & HLs & [= <-]).
    intros [->|HL]%elem_of_cons; eauto.
Qed.



End HillClimbingTiles.


(** ** The word list *)

Lemma elem_of_load_WORDS text WORDS w :
  load_WORDS (Some text) = Ok WORDS → w ∈ WORDS ↔ qualifying text w.
Proof.
  intros [= <-]. rewrite elem_of_list_to_set, list_elem_of_filter.
  unfold qualifying. tauto.
Qed.

Lemma word_prefixes_empty : word_prefixes ∅ = ∅.
Proof. unfold word_prefixes. by rewrite elements_empty. Qed.

(** C8 as the code has it.  Building the dictionary from a word list that
    can be read never fails: [WORDS] is the set of the qualifying words
    (upper-cased tokens of three letters or more), and when there is none
    the result is the empty word set, whose prefix set is empty too. *)
Theorem load_WORDS_no_empty_check (text : string) :
  ∃ WORDS,
    load_WORDS (Some text) = Ok WORDS ∧
    (∀ w, w ∈ WORDS ↔ qualifying text w) ∧
    ((∀ w, ¬ qualifying text w) → WORDS = ∅ ∧ word_prefixes WORDS = ∅).
Proof.
  eexists. split_and!; [reflexivity| |].
  - intros w. by apply elem_of_load_WORDS.
  - intros Hnone.
    assert (list_to_set (filter (λ w, (3 ≤ String.length w)%nat)
                           (str_split (upper text))) = (∅ : gset string)) as ->.
    { apply elem_of_equiv_empty_L. intros w Hw. apply (Hnone w).
      by eapply elem_of_load_WORDS. }
    split; [done | apply word_prefixes_empty].
Qed.

(** ** Hill climbing *)

Lemma set_tile_revert board s L old_letter :
  tiles board !! s = Some old_letter →
  set_tile (set_tile board s L) s old_letter = board.
Proof.
  intros Hold. destruct board as [t sq nb]. unfold set_tile. simpl in *.
  f_equal. rewrite insert_insert_eq. by apply insert_id.
Qed.

Lemma length_chars_LETTERS : length (chars LETTERS) = 96%nat.
Proof. reflexivity. Qed.

Section HillClimbingScore.

Context (WORDS words prefixes : gset string) (rand : nat → nat).

Lemma hill_iteration_score board best k board' best' k' :
  board_score WORDS words prefixes board = Ok best →
  hill_iteration WORDS words prefixes rand board best k
  = Ok (board', best', k') →
  board_score WORDS words prefixes board' = Ok best' ∧ best ≤ best'.
Proof.
  unfold hill_iteration.
  intros Hbest ([[b1 [s old]] k1] & Hmut & H)%bind_Ok.
  apply mutate_boggle_Ok in Hmut as (L & Hs & Hold & HL & -> & ->).
  apply bind_Ok in H as (new_score & Hscore & H).
  destruct (best <=? new_score) eqn:Hcmp; injection H as <- <- <-.
  - by apply Z.leb_le in Hcmp.
  - rewrite set_tile_revert by done. split; [done | lia].
Qed.

Lemma hill_loop_score repeat : ∀ board best k board' best' k',
  board_score WORDS words prefixes board = Ok best →
  hill_loop WORDS words prefixes rand repeat board best k
  = Ok (board', best', k') →
  board_score WORDS words prefixes board' = Ok best' ∧ best ≤ best'.
Proof.
  induction repeat as [|repeat IH]; intros board best k board' best' k' Hb;
    simpl.
  - intros [= <- <- <-]. split; [done | lia].
  - intros ([[b1 best1] k1] & Hit & Hloop)%bind_Ok.
    destruct (hill_iteration_score _ _ _ _ _ _ Hb Hit) as [Hb1 Hle1].
    destruct (IH _ _ _ _ _ _ Hb1 Hloop) as [Hb' Hle']. split; [done | lia].
Qed.

(** The score never drops between the copy [boggle_hill_climbing] starts
    from and the board it returns. *)
Lemma boggle_hill_climbing_score_from_copy board repeat board' :
  boggle_hill_climbing WORDS words prefixes rand board repeat = Ok board' →
  ∃ copy score_copy score',
    copy_board board = Ok copy ∧
    board_score WORDS words prefixes copy = Ok score_copy ∧
    board_score WORDS words prefixes board' = Ok score' ∧
    score_copy ≤ score'.
Proof.
  unfold boggle_hill_climbing. intros (b0 & Hcopy & H)%bind_Ok.
  apply bind_Ok in H as (best & Hbest & H).
  apply bind_Ok in H as ([[b1 best1] k1] & Hloop & [= <-]).
  destruct (hill_loop_score _ _ _ _ _ _ _ Hbest Hloop) as [Hb1 Hle].
  eauto 10.
Qed.

End HillClimbingScore.


(** ** Copying a board through [Board] *)

Lemma mapM_dict_get_Ok (m : gmap square string) (sqs : list square) :
  (∀ s, s ∈ sqs → is_Some (m !! s)) →
  ∃ letters, mapM (dict_get m) sqs = Ok letters ∧
             Some <$> letters = (λ s, m !! s) <$> sqs.
Proof.
  induction sqs as [|s sqs IH]; intros Hall.
  - by exists [].
  - destruct (Hall s ltac:(left)) as [L HL].
    destruct IH as (letters & Hm & Heq); [intros; apply Hall; by right|].
    apply dict_get_Ok in HL as Hg.
    exists (L :: letters). simpl. rewrite Hg. simpl.
    rewrite Hm. split; [done|].
    change (Some L :: (Some <$> letters) = m !! s :: ((λ s, m !! s) <$> sqs)).
    by rewrite Heq, HL.
Qed.

Lemma board_letters_stable (letters : list string) :
  Forall copy_stable letters → board_letters letters = letters.
Proof.
  unfold board_letters. induction 1 as [|L letters [Hkeep Hne] _ IH]; [done|].
  rewrite filter_cons_True by (by rewrite Hkeep).
  rewrite fmap_cons, IH. by destruct (String.eqb_spec L "Q").
Qed.

Lemma copy_board_stable n board :
  board_wf n board → 0 ≤ n →
  (∀ s L, tiles board !! s = Some L → copy_stable L) →
  copy_board board = Ok board.
Proof.
  intros [[Hsq Hnb] Hdom] Hn Hstable. unfold copy_board.
  destruct (mapM_dict_get_Ok (tiles board) (squares board)) as (letters & -> & Heq).
  { intros s. apply Hdom. }
  change (Board_init (Some letters) = Ok board). rewrite Board_init_Some.
  unfold Board_of.
  assert (length letters = length (squares board)) as Hlen.
  { rewrite <- (length_fmap Some letters), Heq. apply length_fmap. }
  assert (∀ i L, letters !! i = Some L →
            ∃ s, squares board !! i = Some s ∧ tiles board !! s = Some L) as Hlk.
  { intros i L Hi.
    assert ((Some <$> letters) !! i = Some (Some L)) as Hi'
      by (by rewrite list_lookup_fmap, Hi).
    rewrite Heq, list_lookup_fmap in Hi'.
    destruct (squares board !! i) as [s|]; [|done].
    injection Hi' as Hi'. eauto. }
  assert (board_letters letters = letters) as ->.
  { apply board_letters_stable, Forall_forall. intros L [i Hi]%list_elem_of_lookup.
    destruct (Hlk i L Hi) as (s & _ & Hs). by eapply Hstable. }
  assert (board_size letters = n) as ->.
  { unfold board_size. rewrite Hlen, Hsq, length_board_squares.
    rewrite Nat2Z.inj_mul, Z2Nat.id by done. by apply Z.sqrt_square. }
  destruct board as [t sq nb]. simpl in *. subst sq nb. do 2 f_equal.
  apply map_eq. intros s.
  destruct (decide (s ∈ board_squares n)) as [Hin|Hnotin].
  - apply list_elem_of_lookup in Hin as [i Hi].
    destruct (lookup_lt_is_Some_2 letters i) as [L HL].
    { rewrite Hlen. by eapply lookup_lt_Some. }
    destruct (Hlk i L HL) as (s' & Hs' & Ht). rewrite Hi in Hs'.
    injection Hs' as <-. rewrite Ht.
    eapply (dict_update_lookup_NoDup _ _ i).
    + rewrite fst_zip by lia. apply NoDup_board_squares.
    + by apply lookup_zip_Some.
  - rewrite dict_update_lookup_notin by (by rewrite fst_zip by lia).
    rewrite lookup_empty. symmetry. apply eq_None_not_Some.
    by rewrite <- Hdom.
Qed.

(** From a well-formed board whose tiles the copy leaves alone, the board
    [boggle_hill_climbing] returns scores at least as much. *)
Lemma boggle_hill_climbing_score_stable WORDS words prefixes rand
    n board repeat board' :
  board_wf n board → 0 ≤ n →
  (∀ s L, tiles board !! s = Some L → copy_stable L) →
  boggle_hill_climbing WORDS words prefixes rand board repeat = Ok board' →
  ∃ score score',
    board_score WORDS words prefixes board = Ok score ∧
    board_score WORDS words prefixes board' = Ok score' ∧
    score ≤ score'.
Proof.
  intros Hwf Hn Hstable Hrun.
  apply boggle_hill_climbing_score_from_copy in Hrun
    as (copy & score & score' & Hcopy & Hs & Hs' & Hle).
  rewrite (copy_board_stable n) in Hcopy by done.
  injection Hcopy as <-. eauto.
Qed.

(** C4 fails on a board that holds the bare letter Q, as [mutate_boggle]
    writes it: [Board('XATA')] becomes [qat_board] after one accepted
    mutation; [qat_board] scores 1 with the dictionary QAT; with
    [repeat = 0] [boggle_hill_climbing] returns its copy, in which Q has
    become QU, and the copy scores 0. *)
Theorem boggle_hill_climbing_loses_bare_Q :
  let prefixes := word_prefixes qat_words in
  (∃ xata,
     Board_init (Some (chars "XATA")) = Ok xata ∧
     boggle_hill_climbing qat_words qat_words prefixes first_square_then_Q xata 1
     = Ok qat_board) ∧
  board_score qat_words qat_words prefixes qat_board = Ok 1 ∧
  ∃ board',
    (∀ rand,
       boggle_hill_climbing qat_words qat_words prefixes rand qat_board 0
       = Ok board') ∧
    tiles qat_board !! (0, 0) = Some "Q" ∧
    tiles board' !! (0, 0) = Some "QU" ∧
    board_score qat_words qat_words prefixes board' = Ok 0.
Proof.
  split_and!.
  - eexists. split; [reflexivity|]. vm_compute. reflexivity.
  - vm_compute. reflexivity.
  - eexists. split_and!.
    + intros rand. vm_compute. reflexivity.
    + vm_compute. reflexivity.
    + vm_compute. reflexivity.
    + vm_compute. reflexivity.
Qed.

(** ** The optimizer returns *)

Lemma valid_tile_keep_letter L : valid_tile L → keep_letter L = true.
Proof.
  intros [(c & -> & Hc)| ->]; [|reflexivity].
  destruct c as [[] [] [] [] [] [] [] []]; vm_compute in Hc |- *;
    (done || lia).
Qed.

Lemma set_tile_wf n board s L :
  board_wf n board → s ∈ squares board → board_wf n (set_tile board s L).
Proof.
  intros [Hshape Hdom] Hs. split; [done|]. intros s'. simpl.
  rewrite Hdom. destruct (decide (s = s')) as [->|Hne].
  - rewrite lookup_insert_eq. split; [eauto | by intros; apply Hdom].
  - by rewrite lookup_insert_ne.
Qed.

Section HillClimbingReturns.

Context (WORDS words prefixes : gset string) (rand : nat → nat).
Hypothesis words_short : ∀ w, w ∈ words → (String.length w ≤ 106)%nat.

Lemma board_score_returns n board :
  board_wf n board → ∃ z, board_score WORDS words prefixes board = Ok z.
Proof.
  intros Hwf. unfold board_score.
  destruct (find_words_returns n board words prefixes Hwf) as [found Hf].
  rewrite Hf. simpl. eexists. apply total_score_short.
  intros w Hw _. apply words_short. revert w Hw.
  apply (find_words_inv board words prefixes (λ _ _, True) (λ w, w ∈ words)
           ltac:(done) ltac:(done) found); done.
Qed.

Lemma hill_iteration_returns n board best k :
  board_wf n board → 0 < n →
  ∃ board' best' k',
    hill_iteration WORDS words prefixes rand board best k
    = Ok (board', best', k') ∧ board_wf n board'.
Proof.
  intros Hwf Hn.
  destruct (lookup_lt_is_Some_2 (squares board)
              (rand k mod length (squares board))%nat) as [s Hs].
  { apply Nat.mod_upper_bound. destruct Hwf as [[-> _] _].
    rewrite length_board_squares. nia. }
  assert (s ∈ squares board) as Hs_in by (by eapply list_elem_of_lookup_2).
  destruct (proj1 (proj2 Hwf s) Hs_in) as [old Hold].
  destruct (lookup_lt_is_Some_2 (chars LETTERS)
              (rand (S k) mod length (chars LETTERS))%nat) as [L HL].
  { apply Nat.mod_upper_bound. by rewrite length_chars_LETTERS. }
  pose proof (set_tile_wf n board s L Hwf Hs_in) as Hwf1.
  destruct (board_score_returns n _ Hwf1) as [new_score Hnew].
  unfold hill_iteration.
  assert (mutate_boggle board LETTERS rand k
          = Ok (set_tile board s L, (s, old), S (S k))) as ->.
  { apply mutate_boggle_Ok. eauto 10. }
  simpl. rewrite Hnew. simpl. destruct (best <=? new_score).
  - eauto.
  - do 3 eexists. split; [done|]. by rewrite set_tile_revert.
Qed.

Lemma hill_loop_returns n repeat : ∀ board best k,
  board_wf n board → 0 < n →
  ∃ r, hill_loop WORDS words prefixes rand repeat board best k = Ok r.
Proof.
  induction repeat as [|repeat IH]; intros board best k Hwf Hn; simpl.
  - eauto.
  - destruct (hill_iteration_returns n board best k Hwf Hn)
      as (b1 & best1 & k1 & -> & Hwf1).
    simpl. by apply IH.
Qed.

(** On a well-formed, non-empty board with valid tiles the optimizer
    raises nothing and returns a board. *)
Lemma boggle_hill_climbing_returns n board repeat :
  board_wf n board → 0 < n → tiles_valid board →
  ∃ board',
    boggle_hill_climbing WORDS words prefixes rand board repeat = Ok board'.
Proof.
  intros Hwf Hn Hvalid. unfold boggle_hill_climbing, copy_board.
  destruct (mapM_dict_get_Ok (tiles board) (squares board))
    as (letters & Hm & Heq); [intros s; apply Hwf|].
  rewrite Hm.
  change (∃ board',
    (b ← Board_init (Some letters);
     best_score ← board_score WORDS words prefixes b;
     '(b, _, _) ← hill_loop WORDS words prefixes rand repeat b best_score 0;
     Ok b) = Ok board').
  rewrite Board_init_Some.
  pose proof (Board_of_wf letters) as Hwf0.
  assert (board_size (board_letters letters) = n) as Hsize.
  { assert (Forall valid_tile letters) as Hall.
    { apply Forall_forall. intros L HL.
      destruct (mapM_dict_get_elem_of _ _ _ _ Hm HL) as [s Hs].
      by eapply Hvalid. }
    unfold board_size, board_letters.
    rewrite length_fmap.
    replace (filter keep_letter letters) with letters.
    2:{ clear -Hall. induction Hall as [|L letters HL _ IH]; [done|].
        rewrite filter_cons_True
          by (by rewrite (valid_tile_keep_letter L HL)).
        by rewrite <- IH. }
    assert (length letters = length (squares board)) as ->.
    { rewrite <- (length_fmap Some letters), Heq. apply length_fmap. }
    destruct Hwf as [[-> _] _]. rewrite length_board_squares.
    rewrite Nat2Z.inj_mul, Z2Nat.id by lia. apply Z.sqrt_square. lia. }
  rewrite Hsize in Hwf0. set (b0 := Board_of letters) in *.
  simpl.
  destruct (board_score_returns n b0 Hwf0) as [best ->]. simpl.
  destruct (hill_loop_returns n repeat b0 best 0%nat Hwf0 Hn)
    as [[[b1 best1] k1] ->].
  simpl. eauto.
Qed.

End HillClimbingReturns.

(** ** The theorems at concrete inputs *)

Lemma find_words_cat_board :
  find_words cat_board cat_words (word_prefixes cat_words) = Ok {["CAT"]}.
Proof. vm_compute. reflexivity. Qed.

Example total_score_cat_board :
  total_score cat_words {["CAT"]} default_scores = Ok 1.
Proof. vm_compute. reflexivity. Qed.

(** [Board('QEST ANSI XWEO YRSN')]: the blanks are dropped, the board is 4
    by 4 and its first tile is QU. *)
Example Board_init_QEST :
  ∃ board,
    Board_init (Some (chars "QEST ANSI XWEO YRSN")) = Ok board ∧
    length (squares board) = 16%nat ∧
    tiles board !! (0, 0) = Some "QU" ∧
    tiles board !! (1, 0) = Some "E" ∧
    tiles board !! (3, 3) = Some "N".
Proof. eexists. split; [reflexivity|]. vm_compute. done. Qed.

Lemma find_words_only_words_witness :
  find_words cat_board cat_words (word_prefixes cat_words) = Ok {["CAT"]} ∧
  "CAT" ∈ ({["CAT"]} : gset string) ∧
  "CAT" ∈ cat_words.
Proof.
  assert ("CAT" ∈ ({["CAT"]} : gset string)) as Hin
    by (by apply elem_of_singleton).
  split_and!; [exact find_words_cat_board | exact Hin |].
  exact (find_words_only_words cat_board cat_words (word_prefixes cat_words)
           {["CAT"]} "CAT" find_words_cat_board Hin).
Defined.

Lemma find_words_witnessed_witness :
  board_shape 2 cat_board ∧
  find_words cat_board cat_words (word_prefixes cat_words) = Ok {["CAT"]} ∧
  "CAT" ∈ ({["CAT"]} : gset string) ∧
  witnessed 2 cat_board "CAT".
Proof.
  assert (board_shape 2 cat_board) as Hshape by (split; reflexivity).
  assert ("CAT" ∈ ({["CAT"]} : gset string)) as Hin
    by (by apply elem_of_singleton).
  split_and!; [exact Hshape | exact find_words_cat_board | exact Hin |].
  exact (find_words_witnessed 2 cat_board cat_words (word_prefixes cat_words)
           {["CAT"]} "CAT" Hshape find_words_cat_board Hin).
Defined.

(** C3 fails on a common word of 107 letters: [total_score] raises
    [IndexError] where the specification's sum is 11. *)
Lemma total_score_long_word :
  payout_total {[long_word]} {[long_word]} = 11 ∧
  total_score {[long_word]} {[long_word]} default_scores = Raise IndexError ∧
  total_score {[long_word]} {[long_word]} default_scores
  ≠ Ok (payout_total {[long_word]} {[long_word]}).
Proof.
  assert (total_score {[long_word]} {[long_word]} default_scores
          = Raise IndexError) as H by (vm_compute; reflexivity).
  split_and!; [vm_compute; reflexivity | exact H | by rewrite H].
Qed.

Lemma total_score_payout_witness :
  (∀ w, w ∈ ({["CAT"; "XYZ"]} : gset string) → w ∈ cat_words →
        (String.length w ≤ 106)%nat) ∧
  total_score cat_words {["CAT"; "XYZ"]} default_scores
  = Ok (payout_total {["CAT"; "XYZ"]} cat_words) ∧
  ∀ s, s ∉ cat_words →
    total_score cat_words ({[s]} ∪ {["CAT"; "XYZ"]}) default_scores
    = total_score cat_words {["CAT"; "XYZ"]} default_scores.
Proof.
  assert (∀ w, w ∈ ({["CAT"; "XYZ"]} : gset string) → w ∈ cat_words →
            (String.length w ≤ 106)%nat) as Hshort.
  { intros w [->%elem_of_singleton|Hw%elem_of_singleton]%elem_of_union _;
      [|subst w]; simpl; lia. }
  split; [exact Hshort|].
  exact (total_score_payout cat_words {["CAT"; "XYZ"]} Hshort).
Defined.



Lemma two_not_perfect_square : ¬ perfect_square 2.
Proof. intros [r Hr]. destruct r as [|[|r]]; simpl in Hr; lia. Qed.

(** C6 fails on the two letters AB: their count is not a perfect square,
    and [Board] raises nothing (it returns the one-cell board A). *)
Lemma Board_init_AB_raises_nothing :
  ¬ (length (board_letters (chars "AB")) = 0%nat ∨
     ¬ perfect_square (length (board_letters (chars "AB"))) →
     ∃ e, Board_init (Some (chars "AB")) = Raise e).
Proof.
  intros H. destruct H as [e He]; [|done].
  right. exact two_not_perfect_square.
Qed.

Lemma Board_init_truncates_witness :
  (¬ perfect_square (length (board_letters (chars "AB"))) ∨
   length (board_letters (chars "AB")) = 0%nat) ∧
  ∃ board,
    Board_init (Some (chars "AB")) = Ok board ∧
    squares board = [(0, 0)] ∧
    tiles board !! (0, 0) = Some "A".
Proof.
  assert (¬ perfect_square (length (board_letters (chars "AB"))) ∨
          length (board_letters (chars "AB")) = 0%nat) as Hhyp
    by (left; exact two_not_perfect_square).
  split; [exact Hhyp|].
  destruct (Board_init_truncates (chars "AB") Hhyp)
    as (board & Hinit & Hsq & _ & Htiles & _).
  exists board. split; [exact Hinit|]. split; [exact Hsq|].
  rewrite Hsq in Htiles.
  change ([tiles board !! (0, 0)] = [Some "A"]) in Htiles.
  by injection Htiles.
Defined.

Lemma no_qualifying_go_at : ∀ w, ¬ qualifying "go at" w.
Proof.
  intros w [Hw Hlen]. vm_compute in Hw.
  apply elem_of_cons in Hw as [->|Hw]; [simpl in Hlen; lia|].
  apply list_elem_of_singleton in Hw as ->. simpl in Hlen; lia.
Qed.

(** C8 fails on the word list "go at": no word qualifies, and the
    construction raises nothing (it returns the empty word set). *)
Lemma load_WORDS_go_at_raises_nothing :
  ¬ ((∀ w, ¬ qualifying "go at" w) →
     ∃ e, load_WORDS (Some "go at") = Raise e).
Proof.
  intros H. destruct (H no_qualifying_go_at) as [e He]. done.
Qed.

Lemma mutate_boggle_xata :
  mutate_boggle xata_board LETTERS first_square_then_Q 0
  = Ok (qat_board, ((0, 0), "X"), 2%nat).
Proof. vm_compute. reflexivity. Qed.


(** ** Completeness of the search *)

Lemma for_each_mono {A} (body : gset string → A → result (gset string)) l st st' :
  (∀ st a st', a ∈ l → body st a = Ok st' → st ⊆ st') →
  for_each body st l = Ok st' → st ⊆ st'.
Proof.
  intros Hbody. apply (for_each_inv (λ f, st ⊆ f)); [done|].
  intros st1 a st2 Ha Hst1 Hst2. etrans; [done|]. by eapply Hbody.
Qed.

Lemma for_each_reaches {A} (body : gset string → A → result (gset string))
    l st st' a w :
  (∀ st a st', a ∈ l → body st a = Ok st' → st ⊆ st') →
  (∀ st st', body st a = Ok st' → w ∈ st') →
  a ∈ l → for_each body st l = Ok st' → w ∈ st'.
Proof.
  revert st. induction l as [|b l IH]; intros st Hmono Hhit Ha; simpl.
  - by apply elem_of_nil in Ha.
  - intros (st1 & H1 & H2)%bind_Ok.
    assert (∀ st a st', a ∈ l → body st a = Ok st' → st ⊆ st') as Hmono'
      by (intros ??? ?; apply Hmono; by right).
    apply elem_of_cons in Ha as [->|Ha].
    + apply (for_each_mono body l st1 st' Hmono' H2). by eapply Hhit.
    + by eapply IH.
Qed.

Section Completeness.

Context (board : Board) (words prefixes : gset string).

Lemma continue_path_mono depth : ∀ path prefix found found',
  continue_path depth board words prefixes path prefix found = Ok found' →
  found ⊆ found'.
Proof.
  induction depth as [|depth IH]; intros path prefix found found'; simpl;
    [done|].
  set (found1 := if decide (prefix ∈ words) then _ else _).
  assert (found ⊆ found1) as H1.
  { subst found1. case_decide; [apply union_subseteq_r | done]. }
  clearbody found1. case_decide; [|intros [= <-]; done].
  intros (tip & _ & Hrun)%bind_Ok. apply bind_Ok in Hrun as (ns & _ & Hrun).
  trans found1; [exact H1|]. refine (for_each_mono _ ns found1 found' _ Hrun).
  intros st s st' _. cbv beta. case_decide; [by intros [= <-]|].
  intros (L & _ & Hgo)%bind_Ok. by eapply IH.
Qed.

Lemma continue_path_reaches path prefix w :
  extends_to board words prefixes path prefix w →
  ∀ depth found found',
    continue_path depth board words prefixes path prefix found = Ok found' →
    w ∈ found'.
Proof.
  induction 1 as [path prefix Hw
                 |path prefix tip ns s L w Hpre Htip Hns Hs Hnotin HL _ IH];
    intros [|depth] found found'; simpl; try done.
  - rewrite (decide_True _ _ Hw). intros Hrun.
    assert ({[prefix]} ∪ found ⊆ found') as Hsub;
      [|apply Hsub, elem_of_union; left; by apply elem_of_singleton].
    case_decide; [|by injection Hrun as <-].
    apply bind_Ok in Hrun as (tip & _ & Hrun).
    apply bind_Ok in Hrun as (ns & _ & Hrun).
    refine (for_each_mono _ ns _ found' _ Hrun).
    intros st s st' _. cbv beta. case_decide; [by intros [= <-]|].
    intros (L & _ & Hgo)%bind_Ok. by eapply continue_path_mono.
  - rewrite (decide_True _ _ Hpre). unfold list_last. rewrite Htip.
    assert (dict_get (board_neighbors board) tip = Ok ns) as Hget
      by (by apply dict_get_Ok).
    simpl. rewrite Hget. simpl.
    apply (for_each_reaches _ ns _ found' s w); [| |done].
    + intros st a st' _. case_decide; [by intros [= <-]|].
      intros (L' & _ & Hgo)%bind_Ok. by eapply continue_path_mono.
    + intros st st'. rewrite decide_False by done.
      intros (L' & HL'%dict_get_Ok & Hgo)%bind_Ok.
      rewrite HL in HL'. injection HL' as <-. by eapply IH.
Qed.


End Completeness.

(** ** Prefixes *)

Lemma str_length_app (a b : string) :
  String.length (a +:+ b) = (String.length a + String.length b)%nat.
Proof.
  induction a as [|c a IH]; [done|].
  change (S (String.length (a +:+ b)) = S (String.length a + String.length b)).
  by rewrite IH.
Qed.

Lemma str_length_zero (a : string) : String.length a = 0%nat ↔ a = "".
Proof. by destruct a. Qed.

Lemma str_take_app (a b : string) : str_take (String.length a) (a +:+ b) = a.
Proof.
  induction a as [|c a IH]; [by destruct b|].
  change (String c (str_take (String.length a) (a +:+ b)) = String c a).
  by rewrite IH.
Qed.

Lemma str_take_split (i : nat) (w : string) :
  (i ≤ String.length w)%nat →
  ∃ suffix, w = str_take i w +:+ suffix ∧
            String.length (str_take i w) = i.
Proof.
  revert w. induction i as [|i IH]; intros w Hi.
  - exists w. by destruct w.
  - destruct w as [|c w]; simpl in Hi; [lia|].
    destruct (IH w ltac:(lia)) as (suffix & Hw & Hlen).
    exists suffix. split.
    + change (String c w = String c (str_take i w +:+ suffix)). by rewrite <- Hw.
    + simpl. by rewrite Hlen.
Qed.

Lemma elem_of_word_prefixes (words : gset string) (p : string) :
  p ∈ word_prefixes words ↔
  ∃ w suffix, w ∈ words ∧ w = p +:+ suffix ∧ p ≠ "" ∧ suffix ≠ "".
Proof.
  unfold word_prefixes. rewrite elem_of_list_to_set. split.
  - intros (w & Hp & Hw%elem_of_elements)%list_elem_of_bind.
    apply list_elem_of_bind in Hp as (i & Hp%list_elem_of_singleton & Hi%elem_of_seq).
    destruct (str_take_split i w ltac:(lia)) as (suffix & Heq & Hlen).
    exists w, suffix. subst p. split_and!; [done..| |].
    + intros H0%str_length_zero. lia.
    + intros ->. rewrite Heq, str_length_app in Hi. simpl in Hi. lia.
  - intros (w & suffix & Hw & -> & Hp & Hsuf).
    apply list_elem_of_bind. exists (p +:+ suffix).
    split; [|by apply elem_of_elements].
    apply list_elem_of_bind. exists (String.length p). split.
    + rewrite str_take_app. by left.
    + apply elem_of_seq. rewrite str_length_app.
      assert (String.length p ≠ 0%nat) by (by rewrite str_length_zero).
      assert (String.length suffix ≠ 0%nat) by (by rewrite str_length_zero).
      lia.
Qed.

Lemma str_app_nonempty (a b : string) : a ≠ "" → a +:+ b ≠ "".
Proof. by destruct a. Qed.

Lemma spell_app board p q w :
  spell board (p ++ q) = Some w →
  ∃ a b, spell board p = Some a ∧ spell board q = Some b ∧ w = a +:+ b.
Proof.
  revert w. induction p as [|s p IH]; intros w; simpl.
  - intros Hq. by exists "", w.
  - destruct (tiles board !! s) as [L|]; simpl; [|done].
    destruct (spell board (p ++ q)) as [w'|] eqn:Hw'; simpl; [|done].
    intros [= <-]. destruct (IH w' eq_refl) as (a & b & -> & Hb & ->).
    exists (L +:+ a), b. simpl. by rewrite str_app_assoc.
Qed.

Lemma spell_nonempty board path w :
  (∀ s L, tiles board !! s = Some L → L ≠ "") →
  path ≠ [] → spell board path = Some w → w ≠ "".
Proof.
  intros Htiles Hne. destruct path as [|s path]; [done|]. simpl.
  destruct (tiles board !! s) as [L|] eqn:HL; simpl; [|done].
  destruct (spell board path) as [w'|]; simpl; [|done].
  intros [= <-]. apply str_app_nonempty. by eapply Htiles.
Qed.

Lemma extends_to_of_path n board words prefixes w :
  board_shape n board →
  (∀ s L, tiles board !! s = Some L → L ≠ "") →
  word_prefixes words ⊆ prefixes →
  w ∈ words →
  ∀ rest path prefix,
    path ≠ [] → NoDup (path ++ rest) → steps_adjacent n (path ++ rest) →
    (∀ s, s ∈ path ++ rest → in_bounds n s) →
    spell board path = Some prefix → spell board (path ++ rest) = Some w →
    extends_to board words prefixes path prefix w.
Proof.
  intros [Hsq Hnb] Htiles Hpre Hw.
  induction rest as [|s rest IH]; intros path prefix Hne Hnd Hadj Hin Hp Hfull.
  - rewrite app_nil_r in Hfull. rewrite Hp in Hfull. injection Hfull as ->.
    by constructor.
  - destruct (last path) as [tip|] eqn:Htip;
      [|by apply last_None in Htip].
    pose proof (last_elem_of _ _ Htip) as Htip_in.
    assert (adjacent n tip s) as (Hb_tip & Hb_s & Hd & _).
    { rewrite last_lookup in Htip.
      apply (Hadj (pred (length path))).
      - by rewrite lookup_app_l by (destruct path; simpl; [done|lia]).
      - rewrite lookup_app_r by (destruct path; simpl; [done|lia]).
        replace (S (pred (length path)) - length path)%nat with 0%nat; [done|].
        destruct path; simpl; [done|lia]. }
    destruct (spell_app _ _ _ _ Hfull) as (a & b & Ha & Hb & ->).
    rewrite Hp in Ha. injection Ha as <-.
    simpl in Hb. destruct (tiles board !! s) as [L|] eqn:HL; simpl in Hb; [|done].
    destruct (spell board rest) as [b'|] eqn:Hb'; simpl in Hb; [|done].
    injection Hb as <-.
    apply NoDup_app in Hnd as Hnd'. destruct Hnd' as (_ & Hdisj & _).
    eapply extends_step; [| exact Htip | | | | exact HL |].
    + apply Hpre, elem_of_word_prefixes. exists (prefix +:+ L +:+ b'), (L +:+ b').
      split_and!; [done..| |].
      * by eapply spell_nonempty.
      * apply str_app_nonempty. by eapply Htiles.
    + rewrite Hnb, neighbors_dict_lookup.
      rewrite decide_True; [done|]. by apply elem_of_board_squares.
    + by apply elem_of_neighbors.
    + intros Hs. apply (Hdisj s Hs). left.
    + apply IH.
      * by destruct path.
      * by rewrite <- app_assoc.
      * by rewrite <- app_assoc.
      * intros x. rewrite <- app_assoc. apply Hin.
      * by apply spell_snoc.
      * by rewrite <- app_assoc.
Qed.

(** X1.  With a prefix set that holds the prefixes of the dictionary,
    [find_words] returns exactly the dictionary words that a path over the
    board spells: a word is in the result if and only if it is in [words]
    and some sequence of distinct, in-bounds cells, each adjacent to the
    one before, spells it.  Pruning by prefix loses no word.  (No tile is
    the empty string.) *)
Theorem find_words_exactly n board words prefixes found w :
  board_shape n board →
  (∀ s L, tiles board !! s = Some L → L ≠ "") →
  word_prefixes words ⊆ prefixes →
  find_words board words prefixes = Ok found →
  w ∈ found ↔ w ∈ words ∧ witnessed n board w.
Proof.
  intros Hshape Htiles Hpre Hfw. split.
  - revert w.
    apply (find_words_inv board words prefixes
             (simple_path_spelling n board)
             (λ w, w ∈ words ∧ witnessed n board w)); [| | |done].
    + intros. by eapply simple_path_spelling_extend.
    + intros path prefix HQ Hin. split; [done | by exists path].
    + intros. by apply simple_path_spelling_start.
  - intros [Hw (path & Hne & Hnd & Hin & Hadj & Hsp)].
    destruct path as [|s0 rest]; [done|].
    assert (s0 ∈ squares board) as Hs0.
    { destruct Hshape as [-> _]. apply elem_of_board_squares, Hin. left. }
    assert (∃ L0, tiles board !! s0 = Some L0) as [L0 HL0].
    { simpl in Hsp. destruct (tiles board !! s0); [eauto | done]. }
    unfold find_words in Hfw.
    refine (for_each_reaches _ (squares board) ∅ found s0 w _ _ Hs0 Hfw).
    + intros st s st' _ (L & _ & Hgo)%bind_Ok. by eapply continue_path_mono.
    + intros st st' (L & HL%dict_get_Ok & Hgo)%bind_Ok.
      rewrite HL0 in HL. injection HL as <-.
      eapply continue_path_reaches; [|exact Hgo].
      apply (extends_to_of_path n board words prefixes w Hshape Htiles Hpre Hw
               rest [s0] L0);
        [done..| |done].
      by apply spell_singleton.
Qed.

(** ** Exceptions and word lengths of the search *)




Lemma spell_length board path w :
  (∀ s L, tiles board !! s = Some L → (String.length L ≤ 2)%nat) →
  spell board path = Some w → (String.length w ≤ 2 * length path)%nat.
Proof.
  intros Htiles. revert w. induction path as [|s path IH]; intros w; simpl.
  - by intros [= <-].
  - destruct (tiles board !! s) as [L|] eqn:HL; simpl; [|done].
    destruct (spell board path) as [w'|]; simpl; [|done].
    intros [= <-]. rewrite str_length_app.
    pose proof (Htiles s L HL). pose proof (IH w' eq_refl). lia.
Qed.

Lemma simple_path_length n (path : list square) :
  NoDup path → (∀ s, s ∈ path → in_bounds n s) →
  (length path ≤ Z.to_nat n * Z.to_nat n)%nat.
Proof.
  intros Hnd Hin. rewrite <- (length_board_squares n).
  apply submseteq_length, NoDup_submseteq; [done|].
  intros s Hs. by apply elem_of_board_squares, Hin.
Qed.

Lemma valid_tile_length L : valid_tile L → (1 ≤ String.length L ≤ 2)%nat.
Proof. intros [(c & -> & _)| ->]; simpl; lia. Qed.

Lemma simple_path_spelling_length n board path prefix :
  (∀ s L, tiles board !! s = Some L → (String.length L ≤ 2)%nat) →
  simple_path_spelling n board path prefix →
  (String.length prefix ≤ 2 * (Z.to_nat n * Z.to_nat n))%nat.
Proof.
  intros Htiles (_ & Hnd & Hin & _ & Hsp).
  pose proof (spell_length _ _ _ Htiles Hsp).
  pose proof (simple_path_length n path Hnd Hin). lia.
Qed.

Lemma payout_nonneg (len : nat) : 0 ≤ payout len.
Proof. do 8 (destruct len as [|len]; [simpl; lia|]). simpl. lia. Qed.

Lemma foldr_add_nonneg (l : list Z) :
  Forall (λ z, 0 ≤ z) l → 0 ≤ foldr Z.add 0 l.
Proof. induction 1; simpl; lia. Qed.

Lemma payout_total_nonneg (found words : gset string) :
  0 ≤ payout_total found words.
Proof.
  rewrite payout_total_foldr. apply foldr_add_nonneg, Forall_fmap, Forall_forall.
  intros w _. apply payout_nonneg.
Qed.

(** X3.  A word found on an [n] by [n] board whose tiles have at most two
    letters has at most 2*n*n letters: a path visits a cell once. *)
Theorem find_words_word_length n board words prefixes found w :
  board_shape n board →
  (∀ s L, tiles board !! s = Some L → (String.length L ≤ 2)%nat) →
  find_words board words prefixes = Ok found → w ∈ found →
  (String.length w ≤ 2 * (Z.to_nat n * Z.to_nat n))%nat.
Proof.
  intros Hshape Htiles Hfw. revert w.
  apply (find_words_inv board words prefixes (simple_path_spelling n board)
           (λ w, (String.length w ≤ 2 * (Z.to_nat n * Z.to_nat n))%nat));
    [| | |done].
  - intros. by eapply simple_path_spelling_extend.
  - intros path prefix Hpath _. by eapply simple_path_spelling_length.
  - intros. by apply simple_path_spelling_start.
Qed.

Lemma board_score_small WORDS words prefixes n board :
  board_wf n board → tiles_valid board → n ≤ 7 →
  ∃ found,
    find_words board words prefixes = Ok found ∧
    board_score WORDS words prefixes board = Ok (payout_total found WORDS).
Proof.
  intros Hwf Hvalid Hn. unfold board_score.
  destruct (find_words_returns n board words prefixes Hwf) as [found Hfw].
  exists found. split; [done|]. rewrite Hfw. simpl.
  apply total_score_short. intros w Hw _.
  assert (String.length w ≤ 2 * (Z.to_nat n * Z.to_nat n))%nat as Hlen.
  { revert w Hw.
    apply (find_words_inv board words prefixes (simple_path_spelling n board)
             (λ w, (String.length w ≤ 2 * (Z.to_nat n * Z.to_nat n))%nat));
      [| | |done].
    - intros. eapply simple_path_spelling_extend; [apply Hwf|done..].
    - intros path prefix Hpath _.
      eapply simple_path_spelling_length; [|done].
      intros s L HL. by apply valid_tile_length, (Hvalid s).
    - intros. apply simple_path_spelling_start; [apply Hwf|done..]. }
  assert (Z.to_nat n ≤ 7)%nat by lia. nia.
Qed.

(** X4.  On a board of side at most 7 with valid tiles, scoring what
    [find_words] found never fails, whatever the dictionary: the words are
    too short to leave the payout table.  The score is the payout of the
    found words that are in [WORDS], and is not negative. *)
Theorem board_score_small_board WORDS words prefixes n board :
  board_wf n board → tiles_valid board → n ≤ 7 →
  ∃ found score,
    find_words board words prefixes = Ok found ∧
    board_score WORDS words prefixes board = Ok score ∧
    score = payout_total found WORDS ∧ 0 ≤ score.
Proof.
  intros Hwf Hvalid Hn.
  destruct (board_score_small WORDS words prefixes n board Hwf Hvalid Hn)
    as (found & Hfw & Hscore).
  exists found, (payout_total found WORDS).
  split_and!; [done..|apply payout_total_nonneg].
Qed.

(** X5.  [word_prefixes] is the set of the non-empty proper prefixes of the
    words: [p] is in it exactly when some word is [p] followed by a
    non-empty rest.  The empty string is never in it, and with a string
    it holds every non-empty prefix of that string. *)
Theorem word_prefixes_proper_prefixes (words : gset string) :
  (∀ p, p ∈ word_prefixes words ↔
        ∃ w suffix, w ∈ words ∧ w = p +:+ suffix ∧ p ≠ "" ∧ suffix ≠ "") ∧
("" ∉ word_prefixes words) ∧
  (∀ p q, p ≠ "" → p +:+ q ∈ word_prefixes words → p ∈ word_prefixes words).
Proof.
  split_and!.
  - apply elem_of_word_prefixes.
  - intros (w & suffix & _ & _ & Hne & _)%elem_of_word_prefixes. done.
  - intros p q Hp (w & suffix & Hw & -> & _ & Hsuf)%elem_of_word_prefixes.
    apply elem_of_word_prefixes. exists ((p +:+ q) +:+ suffix), (q +:+ suffix).
    split_and!; [done| |done|].
    + apply str_app_assoc.
    + intros Hq. apply Hsuf. destruct q; [done|]. discriminate Hq.
Qed.

(** ** Neighbours *)

Lemma NoDup_offsets : NoDup [-1; 0; 1].
Proof.
  repeat constructor; rewrite ?elem_of_cons, ?elem_of_nil; lia.
Qed.

Lemma neighbors_NoDup s n : NoDup (neighbors s n).
Proof.
  destruct s as [x y]. unfold neighbors. apply NoDup_bind.
  - intros dx1 dx2 t _ _ (dy1 & Ht1 & _)%list_elem_of_bind
      (dy2 & Ht2 & _)%list_elem_of_bind.
    destruct (_ && _) in Ht1; [|by apply elem_of_nil in Ht1].
    destruct (_ && _) in Ht2; [|by apply elem_of_nil in Ht2].
    apply list_elem_of_singleton in Ht1, Ht2. subst t.
    injection Ht2 as ? ?. lia.
  - intros dx _. apply NoDup_bind.
    + intros dy1 dy2 t _ _ Ht1 Ht2.
      destruct (_ && _) in Ht1; [|by apply elem_of_nil in Ht1].
      destruct (_ && _) in Ht2; [|by apply elem_of_nil in Ht2].
      apply list_elem_of_singleton in Ht1, Ht2. subst t.
      injection Ht2 as ?. lia.
    + intros dy _. destruct (_ && _); [apply NoDup_singleton | apply NoDup_nil_2].
    + apply NoDup_offsets.
  - apply NoDup_offsets.
Qed.

Lemma chebyshev_sym s t : chebyshev s t = chebyshev t s.
Proof. unfold chebyshev. lia. Qed.

(** X6.  [neighbors(square, n)] lists, each once, exactly the cells of the
    [n] by [n] grid at Chebyshev distance 1 from [square]; the square
    itself is never among them, and being a neighbour is symmetric between
    cells of the grid. *)
Theorem neighbors_king_moves (s : square) (n : Z) :
  NoDup (neighbors s n) ∧
  (∀ t, t ∈ neighbors s n ↔ in_bounds n t ∧ chebyshev s t = 1) ∧
  (s ∉ neighbors s n) ∧
  (∀ t, in_bounds n s → t ∈ neighbors s n → s ∈ neighbors t n).
Proof.
  split_and!.
  - apply neighbors_NoDup.
  - intros t. apply elem_of_neighbors.
  - intros [_ Hd]%elem_of_neighbors. unfold chebyshev in Hd. lia.
  - intros t Hs [_ Hd]%elem_of_neighbors. apply elem_of_neighbors.
    split; [done|]. by rewrite chebyshev_sym.
Qed.

Lemma neighbors_subseteq_window (s : square) (n : Z) :
  neighbors s n ⊆+
  filter (λ t, t ≠ s)
    (dx ← [-1; 0; 1]; dy ← [-1; 0; 1]; [(s.1 + dx, s.2 + dy)]).
Proof.
  apply NoDup_submseteq; [apply neighbors_NoDup|].
  intros t Ht. apply list_elem_of_filter. split.
  - intros ->. apply elem_of_neighbors in Ht as [_ Hd].
    unfold chebyshev in Hd. lia.
  - destruct s as [x y]. unfold neighbors in Ht.
    apply list_elem_of_bind in Ht as (dx & Ht & Hdx).
    apply list_elem_of_bind in Ht as (dy & Ht & Hdy).
    destruct (_ && _) in Ht; [|by apply elem_of_nil in Ht].
    apply list_elem_of_bind. exists dx. split; [|done].
    apply list_elem_of_bind. exists dy. split; [|done]. done.
Qed.

(** X7.  A square has at most 8 neighbours; a square strictly inside the
    grid has exactly 8, and the only square of a 1 by 1 grid has none. *)
Theorem neighbors_count (x y n : Z) :
  (length (neighbors (x, y) n) ≤ 8)%nat ∧
  (0 < x < n - 1 → 0 < y < n - 1 → length (neighbors (x, y) n) = 8%nat) ∧
  (n ≤ 1 → in_bounds n (x, y) → neighbors (x, y) n = []).
Proof.
  split_and!.
  - pose proof (submseteq_length _ _ (neighbors_subseteq_window (x, y) n)) as H.
    etrans; [exact H|]. simpl. rewrite !Z.add_0_r.
    repeat first
      [ rewrite filter_cons_True by (intros [=]; lia)
      | rewrite filter_cons_False by (intros Hne; by apply Hne) ].
    by rewrite filter_nil.
  - intros Hx Hy. unfold neighbors. simpl.
    rewrite ?andb_true_r, ?andb_false_r.
    repeat match goal with
    | |- context [if ?b then _ else _] =>
      replace b with true
        by (symmetry; rewrite !andb_true_iff, !Z.leb_le, !Z.ltb_lt; lia)
    end.
    reflexivity.
  - intros Hn [Hx Hy]. destruct (neighbors (x, y) n) as [|t l] eqn:Hnb; [done|].
    assert (t ∈ neighbors (x, y) n) as Ht by (rewrite Hnb; left).
    apply elem_of_neighbors in Ht as [[Ht1 Ht2] Hd].
    unfold chebyshev in Hd. destruct t as [tx ty]. simpl in *. lia.
Qed.

(** ** Boards as [Board] builds them *)

Lemma board_wf_neighbors_lookup n board s :
  board_wf n board →
  board_neighbors board !! s
  = if decide (s ∈ squares board) then Some (neighbors s n) else None.
Proof.
  intros [[Hsq Hnb] _]. rewrite Hnb, neighbors_dict_lookup, Hsq. done.
Qed.

(** X8.  In a board that [Board] builds, the squares are distinct, the
    dict and [neighbors] have exactly the squares as keys, and [neighbors]
    is a symmetric relation on the squares: every neighbour of a square
    is a square that has it as a neighbour. *)
Theorem Board_init_adjacency letters board :
  Board_init (Some letters) = Ok board →
  NoDup (squares board) ∧
  (∀ s, s ∈ squares board ↔ is_Some (tiles board !! s)) ∧
  (∀ s, s ∈ squares board ↔ is_Some (board_neighbors board !! s)) ∧
  (∀ s ns t, board_neighbors board !! s = Some ns → t ∈ ns →
     t ∈ squares board ∧
     ∃ nt, board_neighbors board !! t = Some nt ∧ s ∈ nt).
Proof.
  rewrite Board_init_Some. intros [= <-].
  pose proof (Board_of_wf letters) as Hwf.
  set (n := board_size (board_letters letters)) in *.
  split_and!.
  - apply NoDup_board_squares.
  - apply Hwf.
  - intros s. rewrite (board_wf_neighbors_lookup n) by done.
    case_decide; split; (done || eauto || by intros []).
  - intros s ns t. rewrite (board_wf_neighbors_lookup n) by done.
    case_decide as Hs; [|done]. intros [= <-] Ht.
    apply elem_of_neighbors in Ht as [Hbt Hd].
    assert (t ∈ squares (Board_of letters)) as Ht
      by (by apply elem_of_board_squares).
    split; [done|]. exists (neighbors t n).
    rewrite (board_wf_neighbors_lookup n) by done.
    rewrite decide_True by done. split; [done|].
    apply elem_of_neighbors.
    split; [by apply elem_of_board_squares | by rewrite chebyshev_sym].
Qed.

Lemma Board_of_copy_stable letters s L :
  Forall letter_or_tile letters →
  tiles (Board_of letters) !! s = Some L → copy_stable L.
Proof.
  intros Hall HL%Board_of_tile_elem_of.
  destruct (board_letters_valid _ _ Hall HL) as [Hvalid Hne].
  split; [by apply valid_tile_keep_letter | done].
Qed.

(** X9.  Copying round trip: a board that [Board] builds from single
    characters and tiles is handed back unchanged by the copy
    [Board(board[s] for s in board.squares)] that [boggle_hill_climbing]
    starts with. *)
Theorem copy_board_of_Board letters board :
  Forall letter_or_tile letters →
  Board_init (Some letters) = Ok board →
  copy_board board = Ok board.
Proof.
  intros Hall. rewrite Board_init_Some. intros [= <-].
  apply (copy_board_stable (board_size (board_letters letters))).
  - apply Board_of_wf.
  - apply board_size_sqr.
  - intros s L. by apply Board_of_copy_stable.
Qed.

Lemma board_letters_app l1 l2 :
  board_letters (l1 ++ l2) = board_letters l1 ++ board_letters l2.
Proof. unfold board_letters. by rewrite filter_app, fmap_app. Qed.

(** X10.  [Board] ignores every element that fails ['A' <= L <= 'Z']:
    inserting such an element anywhere in the letters gives the same
    board.  Among single characters exactly the capital letters A to Z
    pass, so blanks, digits and lower-case letters are dropped. *)
Theorem Board_init_ignores l1 x l2 :
  keep_letter x = false →
  Board_init (Some (l1 ++ x :: l2)) = Board_init (Some (l1 ++ l2)).
Proof.
  intros Hx. rewrite !Board_init_Some. f_equal. unfold Board_of.
  assert (board_letters (l1 ++ x :: l2) = board_letters (l1 ++ l2)) as ->;
    [|done].
  rewrite !board_letters_app. f_equal. unfold board_letters.
  rewrite filter_cons_False; [done|]. rewrite Hx. by intros [].
Qed.

(** X11.  A single character passes the filter of [Board] exactly when it
    is a capital letter A to Z. *)
Theorem keep_letter_capitals (c : ascii) :
  keep_letter (String c EmptyString) = true ↔ (65 ≤ nat_of_ascii c ≤ 90)%nat.
Proof.
  split; [apply keep_letter_char|].
  intros Hc. apply valid_tile_keep_letter. left. eauto.
Qed.

(** ** More on scoring *)

Lemma foldr_add_Permutation (l1 l2 : list Z) :
  l1 ≡ₚ l2 → foldr Z.add 0 l1 = foldr Z.add 0 l2.
Proof. induction 1; simpl; lia. Qed.

Lemma foldr_add_app (l1 l2 : list Z) :
  foldr Z.add 0 (l1 ++ l2) = foldr Z.add 0 l1 + foldr Z.add 0 l2.
Proof. induction l1 as [|x l1 IH]; simpl; lia. Qed.

Lemma payout_total_union found1 found2 words :
  found1 ## found2 →
  payout_total (found1 ∪ found2) words
  = payout_total found1 words + payout_total found2 words.
Proof.
  intros Hdisj. rewrite !payout_total_foldr, <- foldr_add_app, <- fmap_app.
  apply foldr_add_Permutation, fmap_Permutation.
  replace ((found1 ∪ found2) ∩ words)
    with ((found1 ∩ words) ∪ (found2 ∩ words)).
  - apply elements_disj_union.
    intros w [? _]%elem_of_intersection [? _]%elem_of_intersection.
    by apply (Hdisj w).
  - apply set_eq. intros w.
    rewrite !elem_of_union, !elem_of_intersection, elem_of_union. tauto.
Qed.

(** X12.  When the common words have at most 106 letters, the total score
    is never negative, never drops when more words are found, and is
    additive over disjoint sets of found words. *)
Theorem total_score_union WORDS found1 found2 :
  (∀ w, w ∈ found1 ∪ found2 → w ∈ WORDS → (String.length w ≤ 106)%nat) →
  ∃ score1 score2 score,
    total_score WORDS found1 default_scores = Ok score1 ∧
    total_score WORDS found2 default_scores = Ok score2 ∧
    total_score WORDS (found1 ∪ found2) default_scores = Ok score ∧
    0 ≤ score1 ∧ score1 ≤ score ∧
    (found1 ## found2 → score = score1 + score2).
Proof.
  intros Hshort.
  exists (payout_total found1 WORDS), (payout_total found2 WORDS),
    (payout_total (found1 ∪ found2) WORDS).
  split_and!.
  - apply total_score_short. intros w Hw. apply Hshort, elem_of_union. by left.
  - apply total_score_short. intros w Hw. apply Hshort, elem_of_union. by right.
  - by apply total_score_short.
  - apply payout_total_nonneg.
  - replace (found1 ∪ found2) with (found1 ∪ (found2 ∖ found1)).
    + rewrite payout_total_union
        by (intros w ? [_ ?]%elem_of_difference; done).
      pose proof (payout_total_nonneg (found2 ∖ found1) WORDS). lia.
    + apply set_eq. intros w. rewrite !elem_of_union, elem_of_difference.
      destruct (decide (w ∈ found1)); tauto.
  - apply payout_total_union.
Qed.

(** ** More on the optimizer *)

(** X13.  When [mutate_boggle] returns [(s, old_letter)], [s] is a square
    of the board that held [old_letter]; the board differs from the one
    before at [s] alone, where it now holds a letter of [letters];
    [squares] and [neighbors] are untouched; writing [old_letter] back at
    [s] restores the board; and two random draws were used. *)
Theorem mutate_boggle_one_tile board letters rand k board' s old_letter k' :
  mutate_boggle board letters rand k = Ok (board', (s, old_letter), k') →
  s ∈ squares board ∧
  tiles board !! s = Some old_letter ∧
  (∃ L, L ∈ chars letters ∧ tiles board' !! s = Some L) ∧
  (∀ t, t ≠ s → tiles board' !! t = tiles board !! t) ∧
  squares board' = squares board ∧
  board_neighbors board' = board_neighbors board ∧
  set_tile board' s old_letter = board ∧
  k' = S (S k).
Proof.
  intros (L & Hs & Hold & HL & -> & ->)%mutate_boggle_Ok. split_and!.
  - by eapply list_elem_of_lookup_2.
  - done.
  - exists L. split; [by eapply list_elem_of_lookup_2|].
    simpl. apply lookup_insert_eq.
  - intros t Ht. simpl. by apply lookup_insert_ne.
  - done.
  - done.
  - by apply set_tile_revert.
  - done.
Qed.

Lemma random_choice_nil {A} rand k : random_choice rand k (@nil A) = Raise IndexError.
Proof. reflexivity. Qed.

Lemma random_choice_cons {A} rand k (a : A) l :
  ∃ b, b ∈ a :: l ∧ random_choice rand k (a :: l) = Ok (b, S k).
Proof.
  unfold random_choice.
  destruct (lookup_lt_is_Some_2 (a :: l) (rand k mod length (a :: l))%nat)
    as [b Hb].
  { apply Nat.mod_upper_bound. simpl. lia. }
  rewrite Hb. exists b. split; [by eapply list_elem_of_lookup_2 | done].
Qed.

Lemma mutate_boggle_no_squares board letters rand k :
  squares board = [] → mutate_boggle board letters rand k = Raise IndexError.
Proof. unfold mutate_boggle. intros ->. by rewrite random_choice_nil. Qed.

(** X14.  The exceptions of [mutate_boggle]: on a board without squares it
    raises [IndexError]; when the square it draws has no tile it raises
    [KeyError]; when [letters] is empty (and the drawn square has a tile)
    it raises [IndexError]; otherwise it returns. *)
Theorem mutate_boggle_exceptions board letters rand k :
  (squares board = [] →
   mutate_boggle board letters rand k = Raise IndexError) ∧
  (∀ s, squares board !! (rand k mod length (squares board))%nat = Some s →
     tiles board !! s = None →
     mutate_boggle board letters rand k = Raise KeyError) ∧
  (∀ s old_letter,
     squares board !! (rand k mod length (squares board))%nat = Some s →
     tiles board !! s = Some old_letter →
     (letters = "" → mutate_boggle board letters rand k = Raise IndexError) ∧
     (letters ≠ "" →
      ∃ L, L ∈ chars letters ∧
           mutate_boggle board letters rand k
           = Ok (set_tile board s L, (s, old_letter), S (S k)))).
Proof.
  split_and!; [apply mutate_boggle_no_squares|..]; unfold mutate_boggle.
  - intros s Hs Hnone.
    assert (random_choice rand k (squares board) = Ok (s, S k)) as ->
      by (by apply random_choice_Ok).
    simpl. unfold dict_get. by rewrite Hnone.
  - intros s old Hs Hold.
    assert (random_choice rand k (squares board) = Ok (s, S k)) as ->
      by (by apply random_choice_Ok).
    simpl. unfold dict_get. rewrite Hold. simpl. split.
    + intros ->. change (chars "") with (@nil string).
      by rewrite random_choice_nil.
    + intros Hne. destruct letters as [|c letters]; [done|].
      destruct (random_choice_cons rand (S k) (String c EmptyString) (chars letters))
        as (L & HL & Hpick).
      exists L. split; [done|].
      change (chars (String c letters))
        with (String c EmptyString :: chars letters).
      by rewrite Hpick.
Qed.

Section HillClimbingFrame.

Context (WORDS words prefixes : gset string) (rand : nat → nat).

Lemma hill_iteration_frame board best k board' best' k' :
  hill_iteration WORDS words prefixes rand board best k
  = Ok (board', best', k') →
  squares board' = squares board ∧
  board_neighbors board' = board_neighbors board ∧
  k' = S (S k).
Proof.
  unfold hill_iteration.
  intros ([[b1 [s old]] k1] & Hmut & Hrest)%bind_Ok.
  apply mutate_boggle_Ok in Hmut as (L & Hs & Hold & HL & -> & ->).
  apply bind_Ok in Hrest as (new_score & Hscore & Hrest).
  by destruct (best <=? new_score); injection Hrest as <- <- <-.
Qed.

Lemma hill_loop_frame repeat : ∀ board best k board' best' k',
  hill_loop WORDS words prefixes rand repeat board best k
  = Ok (board', best', k') →
  squares board' = squares board ∧
  board_neighbors board' = board_neighbors board ∧
  k' = (k + 2 * repeat)%nat.
Proof.
  induction repeat as [|repeat IH]; intros board best k board' best' k'; simpl.
  - intros [= <- <- <-]. split_and!; [done..|lia].
  - intros ([[b1 best1] k1] & Hit & Hloop)%bind_Ok.
    apply hill_iteration_frame in Hit as (Hsq & Hnb & ->).
    apply IH in Hloop as (Hsq' & Hnb' & ->).
    split_and!; [congruence..|lia].
Qed.

End HillClimbingFrame.

(** X15.  The loop of the optimizer keeps [best_score] equal to the score
    of the board it holds: started with the score of its board, it ends
    with a board whose score is the returned [best_score], which is not
    below the starting one; [squares] and [neighbors] are unchanged and
    each pass used two random draws. *)
Theorem hill_loop_invariant WORDS words prefixes rand repeat
    board best_score k board' best_score' k' :
  board_score WORDS words prefixes board = Ok best_score →
  hill_loop WORDS words prefixes rand repeat board best_score k
  = Ok (board', best_score', k') →
  board_score WORDS words prefixes board' = Ok best_score' ∧
  best_score ≤ best_score' ∧
  squares board' = squares board ∧
  board_neighbors board' = board_neighbors board ∧
  k' = (k + 2 * repeat)%nat.
Proof.
  intros Hbest Hloop.
  destruct (hill_loop_score _ _ _ _ _ _ _ _ _ _ _ Hbest Hloop) as [Hs Hle].
  destruct (hill_loop_frame _ _ _ _ _ _ _ _ _ _ _ Hloop) as (Hsq & Hnb & Hk).
  done.
Qed.

(** X16.  From a board that [Board] built from single characters and
    tiles, the board [boggle_hill_climbing] returns never scores less:
    the copy it starts from is the board itself. *)
Theorem boggle_hill_climbing_never_worse WORDS words prefixes rand
    letters board repeat board' :
  Forall letter_or_tile letters →
  Board_init (Some letters) = Ok board →
  boggle_hill_climbing WORDS words prefixes rand board repeat = Ok board' →
  ∃ score score',
    board_score WORDS words prefixes board = Ok score ∧
    board_score WORDS words prefixes board' = Ok score' ∧
    score ≤ score'.
Proof.
  intros Hall. rewrite Board_init_Some. intros [= <-] Hrun.
  eapply (boggle_hill_climbing_score_stable _ _ _ _
            (board_size (board_letters letters))); [| | |exact Hrun].
  - apply Board_of_wf.
  - apply board_size_sqr.
  - intros s L. by apply Board_of_copy_stable.
Qed.

Lemma board_score_no_squares WORDS words prefixes board :
  squares board = [] → board_score WORDS words prefixes board = Ok 0.
Proof.
  intros Hsq. unfold board_score, find_words. rewrite Hsq. simpl.
  unfold total_score.
  replace ((∅ : gset string) ∩ WORDS) with (∅ : gset string).
  - by rewrite elements_empty.
  - symmetry. apply elem_of_equiv_empty_L. intros w [[]%elem_of_empty _]%elem_of_intersection.
Qed.

(** X17.  On a board without squares, such as [Board('')],
    [boggle_hill_climbing] returns the empty board when [repeat] is 0 and
    raises [IndexError] in its first pass otherwise: [random.choice] has
    no square to draw. *)
Theorem boggle_hill_climbing_no_squares WORDS words prefixes rand board :
  squares board = [] →
  boggle_hill_climbing WORDS words prefixes rand board 0 = Ok (Board_of []) ∧
  ∀ repeat,
    boggle_hill_climbing WORDS words prefixes rand board (S repeat)
    = Raise IndexError.
Proof.
  intros Hsq.
  assert (copy_board board = Ok (Board_of [])) as Hcopy.
  { unfold copy_board. by rewrite Hsq. }
  assert (board_score WORDS words prefixes (Board_of []) = Ok 0) as Hscore
    by (by apply board_score_no_squares).
  unfold boggle_hill_climbing. rewrite Hcopy. cbn [mbind result_bind].
  rewrite Hscore. cbn [mbind result_bind].
  split; [done|]. intros repeat.
  assert (hill_loop WORDS words prefixes rand (S repeat) (Board_of []) 0 0%nat
          = Raise IndexError) as ->; [|done].
  change (hill_iteration WORDS words prefixes rand (Board_of []) 0 0%nat
          ≫= (λ '(board, best_score, k),
                hill_loop WORDS words prefixes rand repeat board best_score k)
          = Raise IndexError).
  unfold hill_iteration.
  by rewrite (mutate_boggle_no_squares (Board_of []) LETTERS rand 0%nat).
Qed.

(** ** The optimizer on boards of side at most 7 *)

Lemma copy_board_valid_wf n board :
  board_wf n board → 0 ≤ n → tiles_valid board →
  ∃ copy, copy_board board = Ok copy ∧ board_wf n copy ∧ tiles_valid copy.
Proof.
  intros Hwf Hn Hvalid. unfold copy_board.
  destruct (mapM_dict_get_Ok (tiles board) (squares board))
    as (letters & Hm & Heq); [intros s; apply Hwf|].
  rewrite Hm. exists (Board_of letters).
  change (Board_init (Some letters) = Ok (Board_of letters)
          ∧ board_wf n (Board_of letters) ∧ tiles_valid (Board_of letters)).
  assert (Forall valid_tile letters) as Hall.
  { apply Forall_forall. intros L HL.
    destruct (mapM_dict_get_elem_of _ _ _ _ Hm HL) as [s Hs]. by eapply Hvalid. }
  assert (board_size (board_letters letters) = n) as Hsize.
  { unfold board_size, board_letters. rewrite length_fmap.
    replace (filter keep_letter letters) with letters.
    2:{ clear -Hall. induction Hall as [|L letters HL _ IH]; [done|].
        rewrite filter_cons_True by (by rewrite (valid_tile_keep_letter L HL)).
        by rewrite <- IH. }
    assert (length letters = length (squares board)) as ->.
    { rewrite <- (length_fmap Some letters), Heq. apply length_fmap. }
    destruct Hwf as [[-> _] _]. rewrite length_board_squares.
    rewrite Nat2Z.inj_mul, Z2Nat.id by lia. apply Z.sqrt_square. lia. }
  split_and!.
  - apply Board_init_Some.
  - rewrite <- Hsize. apply Board_of_wf.
  - intros s L HL%Board_of_tile_elem_of.
    eapply board_letters_valid; [|done].
    eapply Forall_impl; [done|]. apply valid_tile_letter_or_tile.
Qed.

Section HillClimbingSmall.

Context (WORDS words prefixes : gset string) (rand : nat → nat).
Context (n : Z).
Hypothesis side : 0 < n ≤ 7.

Lemma hill_iteration_small board best k :
  board_wf n board → tiles_valid board →
  ∃ board' best' k',
    hill_iteration WORDS words prefixes rand board best k
    = Ok (board', best', k') ∧ board_wf n board' ∧ tiles_valid board'.
Proof.
  intros Hwf Hvalid.
  destruct (lookup_lt_is_Some_2 (squares board)
              (rand k mod length (squares board))%nat) as [s Hs].
  { apply Nat.mod_upper_bound. destruct Hwf as [[-> _] _].
    rewrite length_board_squares. nia. }
  assert (s ∈ squares board) as Hs_in by (by eapply list_elem_of_lookup_2).
  destruct (proj1 (proj2 Hwf s) Hs_in) as [old Hold].
  destruct (lookup_lt_is_Some_2 (chars LETTERS)
              (rand (S k) mod length (chars LETTERS))%nat) as [L HL].
  { apply Nat.mod_upper_bound. by rewrite length_chars_LETTERS. }
  pose proof (set_tile_wf n board s L Hwf Hs_in) as Hwf1.
  assert (tiles_valid (set_tile board s L)) as Hvalid1.
  { apply set_tile_valid; [done|].
    apply LETTERS_valid. by eapply list_elem_of_lookup_2. }
  destruct (board_score_small WORDS words prefixes n _ Hwf1 Hvalid1)
    as (found & _ & Hnew); [lia|].
  unfold hill_iteration.
  assert (mutate_boggle board LETTERS rand k
          = Ok (set_tile board s L, (s, old), S (S k))) as ->.
  { apply mutate_boggle_Ok. eauto 10. }
  simpl. rewrite Hnew. simpl. destruct (best <=? _).
  - eauto 10.
  - do 3 eexists. split; [done|]. by rewrite set_tile_revert.
Qed.

Lemma hill_loop_small repeat : ∀ board best k,
  board_wf n board → tiles_valid board →
  ∃ board' best' k',
    hill_loop WORDS words prefixes rand repeat board best k
    = Ok (board', best', k') ∧ board_wf n board' ∧ tiles_valid board'.
Proof.
  induction repeat as [|repeat IH]; intros board best k Hwf Hvalid; simpl.
  - eauto 10.
  - destruct (hill_iteration_small board best k Hwf Hvalid)
      as (b1 & best1 & k1 & -> & Hwf1 & Hvalid1).
    simpl. by apply IH.
Qed.

End HillClimbingSmall.

(** X18.  On a well-formed board of side 1 to 7 with valid tiles,
    [boggle_hill_climbing] raises nothing, whatever the dictionary, the
    number of passes and the random draws: it returns a well-formed board
    of the same side with valid tiles. *)
Theorem boggle_hill_climbing_small_board WORDS words prefixes rand
    n board repeat :
  board_wf n board → tiles_valid board → 0 < n ≤ 7 →
  ∃ board',
    boggle_hill_climbing WORDS words prefixes rand board repeat = Ok board' ∧
    board_wf n board' ∧ tiles_valid board'.
Proof.
  intros Hwf Hvalid Hn.
  destruct (copy_board_valid_wf n board Hwf ltac:(lia) Hvalid)
    as (copy & Hcopy & Hwf0 & Hvalid0).
  destruct (board_score_small WORDS words prefixes n copy Hwf0 Hvalid0)
    as (found & _ & Hscore); [lia|].
  destruct (hill_loop_small WORDS words prefixes rand n Hn repeat copy
              (payout_total found WORDS) 0%nat Hwf0 Hvalid0)
    as (board' & best' & k' & Hloop & Hwf' & Hvalid').
  exists board'. split; [|done].
  unfold boggle_hill_climbing. rewrite Hcopy. cbn [mbind result_bind].
  rewrite Hscore. cbn [mbind result_bind]. by rewrite Hloop.
Qed.

(** X19.  With [repeat = 0], [boggle_hill_climbing] hands back a board
    equal to the one it was given, when that board was built by [Board]
    from fewer than 64 single characters and tiles. *)
Theorem boggle_hill_climbing_zero WORDS words prefixes rand letters board :
  Forall letter_or_tile letters → (length letters < 64)%nat →
  Board_init (Some letters) = Ok board →
  boggle_hill_climbing WORDS words prefixes rand board 0 = Ok board.
Proof.
  intros Hall Hlen. rewrite Board_init_Some. intros [= <-].
  pose proof (Board_of_wf letters) as Hwf.
  assert (tiles_valid (Board_of letters)) as Hvalid.
  { intros s L HL%Board_of_tile_elem_of. by eapply board_letters_valid. }
  assert (board_size (board_letters letters) ≤ 7) as Hn.
  { unfold board_size.
    assert (length (board_letters letters) ≤ length letters)%nat as Hle.
    { unfold board_letters. rewrite length_fmap. apply length_filter. }
    assert (Z.sqrt (Z.of_nat (length (board_letters letters))) < 8); [|lia].
    apply Z.sqrt_lt_square; lia. }
  destruct (board_score_small WORDS words prefixes _ _ Hwf Hvalid Hn)
    as (found & _ & Hscore).
  unfold boggle_hill_climbing.
  rewrite (copy_board_stable (board_size (board_letters letters)));
    [|done|apply board_size_sqr|intros s L; by apply Board_of_copy_stable].
  cbn [mbind result_bind]. rewrite Hscore. done.
Qed.

(** ** The words of the word list *)


Lemma upper_char_id (c : ascii) :
  ¬ (97 ≤ nat_of_ascii c ≤ 122)%nat → upper_char c = c.
Proof.
  intros Hc. unfold upper_char.
  destruct (_ && _) eqn:Hb; [|done].
  apply andb_true_iff in Hb as [?%Nat.leb_le ?%Nat.leb_le]. lia.
Qed.







(** ** Printing a board *)

Lemma row_bind_fmap (n y : Z) :
  (x ← range n; [(x, y)]) = (λ x, (x, y)) <$> range n.
Proof. induction (range n) as [|x l IH]; [done|]. csimpl. by rewrite IH. Qed.

Lemma board_squares_join (n : Z) :
  board_squares n = mjoin ((λ y, (λ x, (x, y)) <$> range n) <$> range n).
Proof.
  unfold board_squares.
  assert (∀ l : list Z,
    (y ← l; x ← range n; [(x, y)])
    = mjoin ((λ y, (λ x, (x, y)) <$> range n) <$> l)) as H; [|apply H].
  induction l as [|y l IH]; [done|]. csimpl. by rewrite IH, row_bind_fmap.
Qed.

Lemma range_lookup (n i : Z) :
  0 ≤ i < n → range n !! Z.to_nat i = Some i.
Proof.
  intros Hi. unfold range. rewrite lookup_seqZ_lt by lia. f_equal. lia.
Qed.

Lemma board_squares_lookup (n x y : Z) :
  0 ≤ x < n → 0 ≤ y < n →
  board_squares n !! Z.to_nat (y * n + x) = Some (x, y).
Proof.
  intros Hx Hy. rewrite board_squares_join.
  replace (Z.to_nat (y * n + x))
    with (Z.to_nat y * Z.to_nat n + Z.to_nat x)%nat by nia.
  apply join_lookup_Some_same_length'.
  - apply Forall_fmap, Forall_forall. intros y' _. simpl.
    rewrite length_fmap. unfold range. apply length_seqZ.
  - lia.
  - exists ((λ x, (x, y)) <$> range n). split.
    + by rewrite list_lookup_fmap, range_lookup.
    + by rewrite list_lookup_fmap, range_lookup.
Qed.

Lemma Board_repr_args n board :
  board_wf n board →
  mapM (λ s, capitalize <$> dict_get (tiles board) s) (squares board)
  = Ok ((λ s, capitalize (default "" (tiles board !! s))) <$> squares board).
Proof.
  intros [_ Hdom]. apply mapM_Ok_fmap. intros s [L HL]%Hdom.
  unfold dict_get. by rewrite HL.
Qed.

Lemma capitalize_valid_tile L :
  valid_tile L →
  (L = "QU" ∧ format_2s (capitalize L) = "Qu") ∨
  (∃ c, L = String c EmptyString ∧
        format_2s (capitalize L) = String c (String " " EmptyString)).
Proof.
  intros [(c & -> & Hc)| ->]; [right | by left].
  exists c. split; [done|]. unfold capitalize, format_2s.
  rewrite upper_char_id by lia. done.
Qed.

(** X21.  Printing a well-formed board of side [n] raises nothing and
    gives [n] lines joined by newlines; line [y] is the concatenation, for
    [x] from 0 to [n-1], of the cell of the tile at [(x, y)]; the cell of
    the tile QU is Qu, and the cell of a one-letter tile is the letter
    followed by a blank. *)
Theorem Board_repr_rows n board :
  board_wf n board → 0 ≤ n → tiles_valid board →
  Board_repr n board
  = Ok (String.concat newline
          ((λ y, String.concat "" ((λ x, cell_text board (x, y)) <$> range n))
           <$> range n)) ∧
  ∀ s L, tiles board !! s = Some L →
    (L = "QU" ∧ cell_text board s = "Qu") ∨
    (∃ c, L = String c EmptyString ∧
          cell_text board s = String c (String " " EmptyString)).
Proof.
  intros Hwf Hn Hvalid. split.
  - unfold Board_repr. rewrite (Board_repr_args n) by done.
    cbn [mbind result_bind]. unfold Board_format.
    rewrite (mapM_Ok_fmap _
      (λ y, String.concat "" ((λ x, cell_text board (x, y)) <$> range n)));
      [done|].
    intros y Hy%elem_of_range.
    rewrite (mapM_Ok_fmap _ (λ x, cell_text board (x, y))); [done|].
    intros x Hx%elem_of_range. unfold list_get.
    rewrite list_lookup_fmap. destruct Hwf as [[-> _] Hdom].
    rewrite board_squares_lookup by done. simpl.
    unfold cell_text. destruct (Hdom (x, y)) as [[L HL] _].
    { by apply elem_of_board_squares. }
    by rewrite HL.
  - intros s L HL. unfold cell_text. rewrite HL.
    apply capitalize_valid_tile. by eapply Hvalid.
Qed.

(** ** Random boards *)

Lemma sample_pool_length {A} rand k : ∀ d (pool : list A),
  (k ≤ length pool)%nat → length (sample_pool rand d pool k) = k.
Proof.
  induction k as [|k IH]; intros d pool Hk; simpl; [done|].
  destruct (lookup_lt_is_Some_2 pool (rand d mod length pool)%nat) as [a ->].
  { apply Nat.mod_upper_bound. lia. }
  destruct (proj2 (last_is_Some pool)) as [z ->].
  { intros ->. simpl in Hk. lia. }
  simpl. rewrite IH; [done|].
  rewrite length_take, length_insert. lia.
Qed.

Lemma sample_step_Permutation {A} (pool : list A) j a z :
  pool !! j = Some a → last pool = Some z →
  a :: take (length pool - 1) (<[j := z]> pool) ≡ₚ pool.
Proof.
  intros Ha [init ->]%last_Some.
  rewrite length_app. simpl.
  replace (length init + 1 - 1)%nat with (length init) by lia.
  destruct (decide (j < length init)%nat) as [Hlt|Hge].
  - rewrite lookup_app_l in Ha by done.
    rewrite insert_app_l by done.
    rewrite take_app_length' by (by rewrite length_insert).
    rewrite <- (take_drop_middle init j a Ha) at 2.
    rewrite insert_take_drop by done.
    rewrite <- !app_assoc. simpl.
    rewrite (Permutation_middle (take j init) _ a).
    apply Permutation_app_head, Permutation_skip, Permutation_cons_append.
  - assert (j = length init) as ->.
    { apply lookup_lt_Some in Ha. rewrite length_app in Ha. simpl in Ha. lia. }
    rewrite list_lookup_middle in Ha by done. injection Ha as ->.
    rewrite list_insert_id by (by rewrite list_lookup_middle).
    rewrite take_app_length. apply Permutation_cons_append.
Qed.

Lemma sample_pool_submseteq {A} rand k : ∀ d (pool : list A),
  sample_pool rand d pool k ⊆+ pool.
Proof.
  induction k as [|k IH]; intros d pool; simpl; [apply submseteq_nil_l|].
  destruct (pool !! _) as [a|] eqn:Ha; [|apply submseteq_nil_l].
  destruct (last pool) as [z|] eqn:Hz; [|apply submseteq_nil_l].
  etrans; [apply submseteq_skip, IH|].
  by apply Permutation_submseteq, sample_step_Permutation.
Qed.

Lemma filter_length_submseteq {A} (P : A → Prop) `{∀ x, Decision (P x)}
    (l k : list A) :
  l ⊆+ k → (length (filter P l) ≤ length (filter P k))%nat.
Proof.
  intros [k' Hk]%submseteq_Permutation.
  rewrite Hk, filter_app, length_app. lia.
Qed.

Lemma filter_length_two {A} (P : A → Prop) `{∀ x, Decision (P x)}
    (l : list A) i j x y :
  i ≠ j → l !! i = Some x → l !! j = Some y → P x → P y →
  (2 ≤ length (filter P l))%nat.
Proof.
  revert i j. induction l as [|a l IH]; intros i j Hij Hi Hj Hx Hy; [done|].
  destruct i as [|i], j as [|j]; simpl in *; try done.
  - injection Hi as ->. rewrite filter_cons_True by done. simpl.
    apply le_n_S. apply list_elem_of_lookup_2 in Hj.
    destruct (filter P l) as [|b f] eqn:Hf; [|simpl; lia].
    assert (y ∈ filter P l) as Hin by (by apply list_elem_of_filter).
    rewrite Hf in Hin. by apply elem_of_nil in Hin.
  - injection Hj as ->. rewrite filter_cons_True by done. simpl.
    apply le_n_S. apply list_elem_of_lookup_2 in Hi.
    destruct (filter P l) as [|b f] eqn:Hf; [|simpl; lia].
    assert (x ∈ filter P l) as Hin by (by apply list_elem_of_filter).
    rewrite Hf in Hin. by apply elem_of_nil in Hin.
  - pose proof (IH i j ltac:(lia) Hi Hj Hx Hy).
    rewrite filter_cons. case_decide; simpl; lia.
Qed.

Lemma LETTERS_one_Q :
  length (filter (λ L, L = "Q") (chars LETTERS)) = 1%nat.
Proof. vm_compute. reflexivity. Qed.

Lemma LETTERS_keep L : L ∈ chars LETTERS → keep_letter L = true ∧ L ≠ "QU".
Proof.
  intros HL.
  assert (forallb (λ L, keep_letter L && negb (String.eqb L "QU"))
            (chars LETTERS) = true) as Hb by reflexivity.
  rewrite forallb_forall in Hb. apply list_elem_of_In, Hb in HL.
  apply andb_true_iff in HL as [? ?%negb_true_iff%String.eqb_neq]. done.
Qed.

Lemma board_letters_keep_all (letters : list string) :
  Forall (λ L, keep_letter L = true) letters →
  board_letters letters
  = (λ L, if String.eqb L "Q" then "QU" else L) <$> letters.
Proof.
  intros Hall. unfold board_letters. f_equal.
  induction Hall as [|L letters HL _ IH]; [done|].
  rewrite filter_cons_True by (by rewrite HL). by rewrite IH.
Qed.

(** X22.  [random_board(n)] with the pool [LETTERS] raises [ValueError]
    when [n * n] exceeds its 96 letters, that is from side 10 on.
    Otherwise it returns a well-formed board of side [|n|] with valid
    tiles, none of them the bare Q, and at most one of them QU, since
    the sample takes each letter of the pool at most once. *)
Theorem random_board_LETTERS rand d (n : Z) :
  (96 < n * n → random_board rand d n LETTERS = inl ValueError) ∧
  (n * n ≤ 96 →
   ∃ board,
     random_board rand d n LETTERS = inr (Ok board) ∧
     board_wf (Z.abs n) board ∧ tiles_valid board ∧
     (∀ s, tiles board !! s ≠ Some "Q") ∧
     (∀ s t, tiles board !! s = Some "QU" → tiles board !! t = Some "QU" →
             s = t)).
Proof.
  unfold random_board, random_sample. rewrite length_chars_LETTERS. split.
  - intros Hn. destruct (_ && _) eqn:Hb; [|done].
    apply andb_true_iff in Hb as [_ Hb%Z.leb_le]. lia.
  - intros Hn. destruct (_ && _) eqn:Hb.
    2:{ apply andb_false_iff in Hb as [Hb%Z.leb_gt|Hb%Z.leb_gt]; nia. }
    clear Hb.
    set (sample := sample_pool rand d (chars LETTERS) (Z.to_nat (n * n))).
    assert (length sample = Z.to_nat (n * n)) as Hlen.
    { apply sample_pool_length. rewrite length_chars_LETTERS. lia. }
    pose proof (sample_pool_submseteq rand (Z.to_nat (n * n)) d (chars LETTERS))
      as Hsub. fold sample in Hsub.
    assert (∀ L, L ∈ sample → L ∈ chars LETTERS) as Hin
      by (intros L HL; by eapply elem_of_submseteq).
    assert (board_letters sample
            = (λ L, if String.eqb L "Q" then "QU" else L) <$> sample) as Hbl.
    { apply board_letters_keep_all, Forall_forall. intros L HL.
      by apply LETTERS_keep, Hin. }
    assert (Forall letter_or_tile sample) as Hall.
    { apply Forall_forall. intros L HL.
      by apply valid_tile_letter_or_tile, LETTERS_valid, Hin. }
    exists (Board_of sample). split_and!.
    + by rewrite Board_init_Some.
    + replace (Z.abs n) with (board_size (board_letters sample));
        [apply Board_of_wf|].
      unfold board_size. rewrite Hbl, length_fmap, Hlen, Z2Nat.id by nia.
      replace (n * n) with (Z.abs n * Z.abs n) by lia.
      apply Z.sqrt_square. lia.
    + intros s L HL%Board_of_tile_elem_of. by eapply board_letters_valid.
    + intros s HL%Board_of_tile_elem_of.
      by destruct (board_letters_valid _ _ Hall HL).
    + intros s t Hs Ht.
      destruct (decide (s = t)) as [|Hne]; [done|exfalso].
      pose proof (Board_of_wf sample) as [_ Hdom].
      assert (∀ u, tiles (Board_of sample) !! u = Some "QU" →
                ∃ i, squares (Board_of sample) !! i = Some u ∧
                     sample !! i = Some "Q") as Hidx.
      { intros u Hu.
        assert (u ∈ squares (Board_of sample)) as Hu_in
          by (apply Hdom; eauto).
        apply list_elem_of_lookup in Hu_in as [i Hi].
        exists i. split; [done|].
        rewrite (Board_of_tile sample i u Hi), Hbl, list_lookup_fmap in Hu.
        destruct (sample !! i) as [L|] eqn:HL; [|done].
        simpl in Hu. injection Hu as Hu.
        destruct (String.eqb_spec L "Q") as [->|_]; [done|].
        apply list_elem_of_lookup_2, Hin, LETTERS_keep in HL as [_ HL]. done. }
      destruct (Hidx s Hs) as (i & Hi & HQi), (Hidx t Ht) as (j & Hj & HQj).
      assert (i ≠ j) as Hij by (intros ->; congruence).
      pose proof (filter_length_two (λ L, L = "Q") sample i j "Q" "Q"
                    Hij HQi HQj eq_refl eq_refl) as H2.
      pose proof (filter_length_submseteq (λ L, L = "Q") _ _ Hsub) as H1.
      rewrite LETTERS_one_Q in H1. lia.
Qed.

(** ** Larger dictionaries *)





(** ** The further properties at concrete inputs *)

Lemma chars_letter_or_tile (s : string) : Forall letter_or_tile (chars s).
Proof. induction s as [|c s IH]; constructor; [by left | done]. Qed.

Lemma Board_of_tiles_valid letters :
  Forall letter_or_tile letters → tiles_valid (Board_of letters).
Proof.
  intros Hall s L HL%Board_of_tile_elem_of. by eapply board_letters_valid.
Qed.

Lemma cat_board_wf : board_wf 2 cat_board.
Proof. exact (Board_of_wf (chars "CAAT")). Qed.

Lemma cat_board_valid : tiles_valid cat_board.
Proof. apply Board_of_tiles_valid, chars_letter_or_tile. Qed.

Lemma cat_board_nonempty s L : tiles cat_board !! s = Some L → L ≠ "".
Proof.
  intros HL%cat_board_valid%valid_tile_length Heq. subst L. simpl in HL. lia.
Qed.

Lemma cat_board_short s L :
  tiles cat_board !! s = Some L → (String.length L ≤ 2)%nat.
Proof. intros HL%cat_board_valid%valid_tile_length. lia. Qed.

Lemma xata_board_wf : board_wf 2 xata_board.
Proof. exact (Board_of_wf (chars "XATA")). Qed.

Lemma xata_board_valid : tiles_valid xata_board.
Proof. apply Board_of_tiles_valid, chars_letter_or_tile. Qed.

Lemma CAT_found : "CAT" ∈ ({["CAT"]} : gset string).
Proof. by apply elem_of_singleton. Qed.

Lemma find_words_exactly_witness :
  board_shape 2 cat_board ∧
  (∀ s L, tiles cat_board !! s = Some L → L ≠ "") ∧
  word_prefixes cat_words ⊆ word_prefixes cat_words ∧
  find_words cat_board cat_words (word_prefixes cat_words) = Ok {["CAT"]} ∧
  ("CAT" ∈ ({["CAT"]} : gset string) ↔
   "CAT" ∈ cat_words ∧ witnessed 2 cat_board "CAT").
Proof.
  assert (word_prefixes cat_words ⊆ word_prefixes cat_words) as Hsub by done.
  split_and!; [apply cat_board_wf | exact cat_board_nonempty | exact Hsub
              | exact find_words_cat_board |].
  exact (find_words_exactly 2 cat_board cat_words (word_prefixes cat_words)
           {["CAT"]} "CAT" (proj1 cat_board_wf) cat_board_nonempty Hsub
           find_words_cat_board).
Defined.

Lemma find_words_word_length_witness :
  board_shape 2 cat_board ∧
  (∀ s L, tiles cat_board !! s = Some L → (String.length L ≤ 2)%nat) ∧
  find_words cat_board cat_words (word_prefixes cat_words) = Ok {["CAT"]} ∧
  "CAT" ∈ ({["CAT"]} : gset string) ∧
  (String.length "CAT" ≤ 2 * (Z.to_nat 2 * Z.to_nat 2))%nat.
Proof.
  split_and!; [apply cat_board_wf | exact cat_board_short
              | exact find_words_cat_board | exact CAT_found |].
  exact (find_words_word_length 2 cat_board cat_words (word_prefixes cat_words)
           {["CAT"]} "CAT" (proj1 cat_board_wf) cat_board_short
           find_words_cat_board CAT_found).
Defined.

Lemma board_score_small_board_witness :
  board_wf 2 cat_board ∧ tiles_valid cat_board ∧ 2 ≤ 7 ∧
  ∃ found score,
    find_words cat_board cat_words (word_prefixes cat_words) = Ok found ∧
    board_score cat_words cat_words (word_prefixes cat_words) cat_board
    = Ok score ∧
    score = payout_total found cat_words ∧ 0 ≤ score.
Proof.
  assert (2 ≤ 7) as Hle by lia.
  split_and!; [exact cat_board_wf | exact cat_board_valid | exact Hle |].
  exact (board_score_small_board cat_words cat_words (word_prefixes cat_words)
           2 cat_board cat_board_wf cat_board_valid Hle).
Defined.

Lemma Board_init_CAAT : Board_init (Some (chars "CAAT")) = Ok cat_board.
Proof. reflexivity. Qed.

Lemma Board_init_adjacency_witness :
  Board_init (Some (chars "CAAT")) = Ok cat_board ∧
  NoDup (squares cat_board) ∧
  (∀ s, s ∈ squares cat_board ↔ is_Some (tiles cat_board !! s)) ∧
  (∀ s, s ∈ squares cat_board ↔ is_Some (board_neighbors cat_board !! s)) ∧
  (∀ s ns t, board_neighbors cat_board !! s = Some ns → t ∈ ns →
     t ∈ squares cat_board ∧
     ∃ nt, board_neighbors cat_board !! t = Some nt ∧ s ∈ nt).
Proof.
  split; [exact Board_init_CAAT|].
  exact (Board_init_adjacency (chars "CAAT") cat_board Board_init_CAAT).
Defined.

Lemma copy_board_of_Board_witness :
  Forall letter_or_tile (chars "CAAT") ∧
  Board_init (Some (chars "CAAT")) = Ok cat_board ∧
  copy_board cat_board = Ok cat_board.
Proof.
  split_and!; [apply chars_letter_or_tile | exact Board_init_CAAT |].
  exact (copy_board_of_Board (chars "CAAT") cat_board
           (chars_letter_or_tile "CAAT") Board_init_CAAT).
Defined.

Lemma Board_init_ignores_witness :
  keep_letter " " = false ∧
  Board_init (Some (chars "CA" ++ " " :: chars "AT"))
  = Board_init (Some (chars "CA" ++ chars "AT")).
Proof.
  assert (keep_letter " " = false) as Hblank by reflexivity.
  split; [exact Hblank|].
  exact (Board_init_ignores (chars "CA") " " (chars "AT") Hblank).
Defined.

Lemma CAT_CATS_short w :
  w ∈ ({["CAT"]} : gset string) ∪ {["CATS"]} → w ∈ cat_words →
  (String.length w ≤ 106)%nat.
Proof.
  intros [Hw%elem_of_singleton|Hw%elem_of_singleton]%elem_of_union _;
    subst w; simpl; lia.
Qed.

Lemma total_score_union_witness :
  (∀ w, w ∈ ({["CAT"]} : gset string) ∪ {["CATS"]} → w ∈ cat_words →
        (String.length w ≤ 106)%nat) ∧
  ∃ score1 score2 score,
    total_score cat_words {["CAT"]} default_scores = Ok score1 ∧
    total_score cat_words {["CATS"]} default_scores = Ok score2 ∧
    total_score cat_words ({["CAT"]} ∪ {["CATS"]}) default_scores = Ok score ∧
    0 ≤ score1 ∧ score1 ≤ score ∧
    (({["CAT"]} : gset string) ## {["CATS"]} → score = score1 + score2).
Proof.
  split; [exact CAT_CATS_short|].
  exact (total_score_union cat_words {["CAT"]} {["CATS"]} CAT_CATS_short).
Defined.

Lemma mutate_boggle_one_tile_witness :
  mutate_boggle xata_board LETTERS first_square_then_Q 0
  = Ok (qat_board, ((0, 0), "X"), 2%nat) ∧
  (0, 0) ∈ squares xata_board ∧
  tiles xata_board !! (0, 0) = Some "X" ∧
  (∃ L, L ∈ chars LETTERS ∧ tiles qat_board !! (0, 0) = Some L) ∧
  (∀ t, t ≠ (0, 0) → tiles qat_board !! t = tiles xata_board !! t) ∧
  squares qat_board = squares xata_board ∧
  board_neighbors qat_board = board_neighbors xata_board ∧
  set_tile qat_board (0, 0) "X" = xata_board ∧
  2%nat = 2%nat.
Proof.
  split; [exact mutate_boggle_xata|].
  exact (mutate_boggle_one_tile xata_board LETTERS first_square_then_Q 0%nat
           qat_board (0, 0) "X" 2%nat mutate_boggle_xata).
Defined.

Lemma board_score_xata :
  board_score qat_words qat_words (word_prefixes qat_words) xata_board = Ok 0.
Proof. vm_compute. reflexivity. Qed.

Lemma hill_loop_xata :
  hill_loop qat_words qat_words (word_prefixes qat_words) first_square_then_Q
    1 xata_board 0 0
  = Ok (qat_board, 1, 2%nat).
Proof. vm_compute. reflexivity. Qed.

Lemma hill_loop_invariant_witness :
  board_score qat_words qat_words (word_prefixes qat_words) xata_board = Ok 0 ∧
  hill_loop qat_words qat_words (word_prefixes qat_words) first_square_then_Q
    1 xata_board 0 0
  = Ok (qat_board, 1, 2%nat) ∧
  board_score qat_words qat_words (word_prefixes qat_words) qat_board = Ok 1 ∧
  0 ≤ 1 ∧
  squares qat_board = squares xata_board ∧
  board_neighbors qat_board = board_neighbors xata_board ∧
  2%nat = (0 + 2 * 1)%nat.
Proof.
  split_and!; [exact board_score_xata | exact hill_loop_xata | ..];
    apply (hill_loop_invariant qat_words qat_words (word_prefixes qat_words)
             first_square_then_Q 1 xata_board 0 0%nat qat_board 1 2%nat
             board_score_xata hill_loop_xata).
Defined.

Lemma Board_init_XATA : Board_init (Some (chars "XATA")) = Ok xata_board.
Proof. reflexivity. Qed.

Lemma boggle_hill_climbing_xata :
  boggle_hill_climbing qat_words qat_words (word_prefixes qat_words)
    first_square_then_Q xata_board 1
  = Ok qat_board.
Proof. vm_compute. reflexivity. Qed.

Lemma boggle_hill_climbing_never_worse_witness :
  Forall letter_or_tile (chars "XATA") ∧
  Board_init (Some (chars "XATA")) = Ok xata_board ∧
  boggle_hill_climbing qat_words qat_words (word_prefixes qat_words)
    first_square_then_Q xata_board 1
  = Ok qat_board ∧
  ∃ score score',
    board_score qat_words qat_words (word_prefixes qat_words) xata_board
    = Ok score ∧
    board_score qat_words qat_words (word_prefixes qat_words) qat_board
    = Ok score' ∧
    score ≤ score'.
Proof.
  split_and!; [apply chars_letter_or_tile | exact Board_init_XATA
              | exact boggle_hill_climbing_xata |].
  exact (boggle_hill_climbing_never_worse qat_words qat_words
           (word_prefixes qat_words) first_square_then_Q (chars "XATA")
           xata_board 1 qat_board (chars_letter_or_tile "XATA")
           Board_init_XATA boggle_hill_climbing_xata).
Defined.

Lemma boggle_hill_climbing_no_squares_witness :
  squares (Board_of []) = [] ∧
  boggle_hill_climbing qat_words qat_words (word_prefixes qat_words)
    first_square_then_Q (Board_of []) 0
  = Ok (Board_of []) ∧
  ∀ repeat,
    boggle_hill_climbing qat_words qat_words (word_prefixes qat_words)
      first_square_then_Q (Board_of []) (S repeat)
    = Raise IndexError.
Proof.
  assert (squares (Board_of []) = []) as Hsq by reflexivity.
  split; [exact Hsq|].
  exact (boggle_hill_climbing_no_squares qat_words qat_words
           (word_prefixes qat_words) first_square_then_Q (Board_of []) Hsq).
Defined.

Lemma boggle_hill_climbing_small_board_witness :
  board_wf 2 xata_board ∧ tiles_valid xata_board ∧ 0 < 2 ≤ 7 ∧
  ∃ board',
    boggle_hill_climbing qat_words qat_words (word_prefixes qat_words)
      first_square_then_Q xata_board 1
    = Ok board' ∧
    board_wf 2 board' ∧ tiles_valid board'.
Proof.
  assert (0 < 2 ≤ 7) as Hside by lia.
  split_and!; [exact xata_board_wf | exact xata_board_valid | lia | lia |].
  exact (boggle_hill_climbing_small_board qat_words qat_words
           (word_prefixes qat_words) first_square_then_Q 2 xata_board 1
           xata_board_wf xata_board_valid Hside).
Defined.

Lemma boggle_hill_climbing_zero_witness :
  Forall letter_or_tile (chars "XATA") ∧
  (length (chars "XATA") < 64)%nat ∧
  Board_init (Some (chars "XATA")) = Ok xata_board ∧
  boggle_hill_climbing qat_words qat_words (word_prefixes qat_words)
    first_square_then_Q xata_board 0
  = Ok xata_board.
Proof.
  assert (length (chars "XATA") < 64)%nat as Hlen by (simpl; lia).
  split_and!; [apply chars_letter_or_tile | exact Hlen
              | exact Board_init_XATA |].
  exact (boggle_hill_climbing_zero qat_words qat_words
           (word_prefixes qat_words) first_square_then_Q (chars "XATA")
           xata_board (chars_letter_or_tile "XATA") Hlen Board_init_XATA).
Defined.



Lemma Board_repr_rows_witness :
  board_wf 2 cat_board ∧ 0 ≤ 2 ∧ tiles_valid cat_board ∧
  Board_repr 2 cat_board
  = Ok (String.concat newline
          ((λ y, String.concat "" ((λ x, cell_text cat_board (x, y)) <$> range 2))
           <$> range 2)).
Proof.
  assert (0 ≤ 2) as Hn by lia.
  split_and!; [exact cat_board_wf | exact Hn | exact cat_board_valid |].
  exact (proj1 (Board_repr_rows 2 cat_board cat_board_wf Hn cat_board_valid)).
Defined.

(** The board [Board('QEST ANSI XWEO YRSN')] prints as the notebook
    shows it. *)
Example Board_repr_QEST :
  Board_repr 4 (Board_of (chars "QEST ANSI XWEO YRSN"))
  = Ok ("QuE S T " +:+ newline +:+ "A N S I " +:+ newline
        +:+ "X W E O " +:+ newline +:+ "Y R S N ").
Proof. vm_compute. reflexivity. Qed.



